(** * Event routing and player registry of the BF6 Portal scripting template

    A shallow embedding of
      - [CorePlayer_APlayer]        (src/Core/Player/APlayer.ts),
      - [CorePlayer_APlayerManager] (src/Core/Player/APlayerManager.ts),
      - [Core_AGameMode]            (src/Core/AGameMode.ts),
    followed by the properties of the registry, of the listener bus and of
    the router [_internal].

    Objects are modelled by reference.  A listener object is a [Listener]
    (its identity); a logical player is a [PlayerRef] into the store of
    [APlayer] instances; the [listeners] field of a subject holds a
    reference into a store of arrays, so that [push] (which mutates the
    array in place) and [filter] (which builds a new array and re-assigns
    the field) are told apart.  The store is a list, a reference is an
    index, allocation appends.

    Callback and hook bodies are the code of the game mode author.  They
    are taken as a parameter ([Program]): each body is a script of bus
    operations ([addListener] / [removeListener] on any subject).  Bodies
    do not call [emit], [_internal] or the PlayerManager, as the class
    documentation of [Core_AGameMode] and [CorePlayer_APlayerManager]
    requires.

    A ghost [trace] records, in order, each call of [emit], each callback
    entered, each protected hook entered and each mutation of the
    [players] map. *)

From Stdlib Require Import ZArith Lia.
From stdpp Require Import base tactics option numbers list.

Open Scope Z_scope.
Open Scope nat_scope.

(** ** Host engine *)

(** An engine handle ([mod.Player]) together with what the two host
    queries answer for it at the time of the call. *)
Module Mod.
Record Player := mkPlayer {
  GetObjId : Z;
  IsPlayerValid : bool
}.
End Mod.

(** ** Names of events and hooks *)

(** Router entry points that resolve one player and then forward. *)
Inductive PlayerEv :=
| OnAIMoveToFailed | OnAIMoveToRunning | OnAIMoveToSucceeded
| OnAIParachuteRunning | OnAIParachuteSucceeded
| OnAIWaypointIdleFailed | OnAIWaypointIdleRunning | OnAIWaypointIdleSucceeded
| OnPlayerDeployed
| OnPlayerInteract
| OnPlayerEnterAreaTrigger | OnPlayerExitAreaTrigger
| OnPlayerEnterCapturePoint | OnPlayerExitCapturePoint
| OnPlayerEnterVehicle | OnPlayerExitVehicle
| OnPlayerEnterVehicleSeat | OnPlayerExitVehicleSeat
| OnPlayerSwitchTeam | OnPlayerUIButtonEvent
| OnPlayerUndeploy
| OnRayCastHit | OnRayCastMissed
| OnSpawnerSpawned.

(** Router entry points with an acting player and an "other" player. *)
Inductive PairEv :=
| OnMandown | OnPlayerDamaged | OnPlayerDied
| OnPlayerEarnedKill | OnPlayerEarnedKillAssist | OnRevived.

(** Router entry points without player context that only call the hook. *)
Inductive WorldEv :=
| OngoingAreaTrigger | OngoingCapturePoint | OngoingEmplacementSpawner
| OngoingHQ | OngoingInteractPoint | OngoingLootSpawner | OngoingMCOM
| OngoingRingOfFire | OngoingSector | OngoingSpawner | OngoingSpawnPoint
| OngoingTeam | OngoingVehicle | OngoingVehicleSpawner
| OngoingWaypointPath | OngoingWorldIcon
| OnCapturePointCaptured | OnCapturePointCapturing | OnCapturePointLost
| OnGameModeEnding | OnGameModeStarted
| OnMCOMArmed | OnMCOMDefused | OnMCOMDestroyed
| OnRingOfFireZoneSizeChange | OnTimeLimitReached
| OnVehicleDestroyed | OnVehicleSpawned.

(** A key of [CorePlayer_IPlayerEvents] / [CorePlayer_IGameModeEvents],
    or the name of a protected hook. *)
Inductive EventName :=
| EvPlayer (k : PlayerEv)
| EvPair (k : PairEv)
| EvWorld (k : WorldEv)
| OngoingGlobal
| OngoingPlayer
| OnPlayerJoinGame
| OnPlayerLeaveGame.

(** ** Values, subjects, scripts *)

(** Object identities: of a listener object, of a [CorePlayer_APlayer]
    instance, of an array. *)
Abbreviation Listener := nat (only parsing).
Abbreviation PlayerRef := nat (only parsing).
Abbreviation ArrayRef := nat (only parsing).

(** An argument handed to a callback or hook: a logical player or
    [undefined] ([ArgLP None]), or an opaque host value. *)
Inductive Arg :=
| ArgLP (lp : option PlayerRef)
| ArgHost (v : Z).

(** The two objects that carry a listener bus. *)
Inductive Subject :=
| TheMode
| ThePlayer (r : PlayerRef).

(** What a callback or hook body may do. *)
Inductive Cmd :=
| AddListener (s : Subject) (l : Listener)
| RemoveListener (s : Subject) (l : Listener).

(** Ghost observations. *)
Inductive Obs :=
| ObsEmit (s : Subject) (ev : EventName) (args : list Arg)
| ObsInvoke (s : Subject) (l : Listener) (ev : EventName) (args : list Arg)
| ObsHook (ev : EventName) (args : list Arg)
| ObsSet (id : Z) (lp : PlayerRef)
| ObsDetach (lp : PlayerRef)
| ObsDelete (id : Z).

(** ** Store *)

(** [CorePlayer_APlayer]: [player] is fixed at construction, [listeners]
    is a mutable field holding an array. *)
Record APlayer := mkAPlayer {
  player : Mod.Player;
  listeners : ArrayRef
}.

(** The [players] map of the PlayerManager, in insertion order. *)
Abbreviation PlayersMap := (list (Z * nat)) (only parsing).

(** The state of one [Core_AGameMode] instance and of what it owns.
    [playerManager = None] is the field before the first join
    ([undefined]). *)
Record State := mkState {
  arrays : list (list Listener);
  objects : list APlayer;
  playerManager : option PlayersMap;
  gm_listeners : ArrayRef;
  trace : list Obs
}.

(** [new Core_AGameMode()]: [listeners = []], no PlayerManager. *)
Definition new_GameMode : State :=
  mkState [[]] [] None 0 [].

Definition set_arrays (f : list (list Listener) → list (list Listener)) (w : State) : State :=
  mkState (f (arrays w)) (objects w) (playerManager w) (gm_listeners w) (trace w).

Definition set_objects (f : list APlayer → list APlayer) (w : State) : State :=
  mkState (arrays w) (f (objects w)) (playerManager w) (gm_listeners w) (trace w).

Definition set_playerManager (m : option PlayersMap) (w : State) : State :=
  mkState (arrays w) (objects w) m (gm_listeners w) (trace w).

Definition set_gm_listeners (a : ArrayRef) (w : State) : State :=
  mkState (arrays w) (objects w) (playerManager w) a (trace w).

Definition log (o : Obs) (w : State) : State :=
  mkState (arrays w) (objects w) (playerManager w) (gm_listeners w) (trace w ++ [o]).

(** [new Array]: allocate and return the reference. *)
Definition alloc_array (ls : list Listener) (w : State) : ArrayRef * State :=
  (length (arrays w), set_arrays (λ h, h ++ [ls]) w).

(** ** The [players] map (a JS [Map<number, CorePlayer_APlayer>]) *)

Fixpoint Map_get (id : Z) (m : PlayersMap) : option PlayerRef :=
  match m with
  | [] => None
  | (k, v) :: m' => if bool_decide (k = id) then Some v else Map_get id m'
  end.

(** [Map.set]: an existing key keeps its position. *)
Fixpoint Map_set (id : Z) (lp : PlayerRef) (m : PlayersMap) : PlayersMap :=
  match m with
  | [] => [(id, lp)]
  | (k, v) :: m' =>
      if bool_decide (k = id) then (k, lp) :: m' else (k, v) :: Map_set id lp m'
  end.

Definition Map_delete (id : Z) (m : PlayersMap) : PlayersMap :=
  filter (λ e, e.1 ≠ id) m.

Definition Map_values (m : PlayersMap) : list PlayerRef := m.*2.

(** Representation invariant of a map: keys are unique. *)
Definition Map_ok (m : PlayersMap) : Prop := NoDup m.*1.

(** The body of [get(player)] on the map: [undefined] for a handle the
    host does not hold valid, otherwise the entry of its id. *)
Definition resolve (p : Mod.Player) (m : PlayersMap) : option PlayerRef :=
  if negb (Mod.IsPlayerValid p) then None
  else Map_get (Mod.GetObjId p) m.

(** ** Listener bus: [addListener], [removeListener], [emit] *)

(** The [listeners] field of a subject. *)
Definition listeners_of (s : Subject) (w : State) : option ArrayRef :=
  match s with
  | TheMode => Some (gm_listeners w)
  | ThePlayer r => listeners <$> objects w !! r
  end.

Definition set_listeners (s : Subject) (a : ArrayRef) (w : State) : State :=
  match s with
  | TheMode => set_gm_listeners a w
  | ThePlayer r =>
      match objects w !! r with
      | Some o => set_objects (λ h, <[r := mkAPlayer (player o) a]> h) w
      | None => w
      end
  end.

(** The current content of the array in the [listeners] field. *)
Definition current_listeners (s : Subject) (w : State) : option (list Listener) :=
  listeners_of s w ≫= λ a, arrays w !! a.

(** [this.listeners.push(listener)]: in place. *)
Definition addListener (s : Subject) (l : Listener) (w : State) : State :=
  match listeners_of s w with
  | Some a =>
      match arrays w !! a with
      | Some ls => set_arrays (λ h, <[a := ls ++ [l]]> h) w
      | None => w
      end
  | None => w
  end.

(** [this.listeners = this.listeners.filter((l) => l !== listener)]:
    a new array, the old one is left as it is. *)
Definition removeListener (s : Subject) (l : Listener) (w : State) : State :=
  match current_listeners s w with
  | Some ls =>
      let '(a, w1) := alloc_array (filter (λ l', l' ≠ l) ls) w in
      set_listeners s a w1
  | None => w
  end.

Definition run_cmd (c : Cmd) (w : State) : State :=
  match c with
  | AddListener s l => addListener s l w
  | RemoveListener s l => removeListener s l w
  end.

Definition run_script (cs : list Cmd) (w : State) : State :=
  foldl (λ w c, run_cmd c w) w cs.

(** ** The code of the game mode author *)

Record Program := mkProgram {
  (** [listener[event]]: [None] when the listener object has no such
      function, otherwise its body. *)
  callback : Listener → EventName → option (list Arg → list Cmd);
  (** body of the protected hook of that name ([{}] in the base class) *)
  hook : EventName → list Arg → list Cmd;
  (** listeners the constructor of the concrete player class subscribes
      to the new instance *)
  ctor_listeners : PlayerRef → Mod.Player → list Listener
}.

(** ** Results of a call *)

(** A call returns normally, throws the [TypeError] of a property access
    on [undefined], or does not return within the fuel given to [emit]. *)
Inductive Res (A : Type) :=
| Done (a : A) (w : State)
| TypeError (w : State)
| OutOfFuel.

Arguments Done {A} a w.
Arguments TypeError {A} w.
Arguments OutOfFuel {A}.

Definition bind {A B : Type} (r : Res A) (k : A → State → Res B) : Res B :=
  match r with
  | Done a w => k a w
  | TypeError w => TypeError w
  | OutOfFuel => OutOfFuel
  end.

Definition lift (o : option State) : Res unit :=
  match o with
  | Some w => Done tt w
  | None => OutOfFuel
  end.

(** What the host engine calls on [_internal]; [extra] are the opaque
    host arguments that are forwarded as they come. *)
Inductive EngineCall :=
| CallWorld (k : WorldEv) (extra : list Z)
| CallOngoingGlobal
| CallOngoingPlayer (eventPlayer : Mod.Player)
| CallPlayer (k : PlayerEv) (eventPlayer : Mod.Player) (extra : list Z)
| CallPair (k : PairEv) (eventPlayer eventOtherPlayer : Mod.Player) (extra : list Z)
| CallJoin (eventPlayer : Mod.Player)
| CallLeave (eventNumber : Z).

(** [typeof listener[event] === 'function'] *)
Definition implements (prog : Program) (ev : EventName) (l : Listener) : Prop :=
  is_Some (callback prog l ev).

#[global] Instance implements_dec prog ev l : Decision (implements prog ev l).
Proof. unfold implements. apply _. Defined.

Section Semantics.

Variable prog : Program.

(** One round of the loop body of [emit]. *)
Definition invoke (s : Subject) (ev : EventName) (args : list Arg)
    (l : Listener) (w : State) : State :=
  match callback prog l ev with
  | Some body => run_script (body args) (log (ObsInvoke s l ev args) w)
  | None => w
  end.

(** [for (const listener of a)]: the array iterator reads [a.length]
    and [a[i]] anew at each step, on the array object [a] it was
    created on. *)
Fixpoint emit_from (fuel : nat) (s : Subject) (ev : EventName)
    (args : list Arg) (a : ArrayRef) (i : nat) (w : State) : option State :=
  match arrays w !! a ≫= (λ ls, ls !! i) with
  | None => Some w
  | Some l =>
      match fuel with
      | 0 => None
      | S fuel' => emit_from fuel' s ev args a (S i) (invoke s ev args l w)
      end
  end.

(** [emit(event, ...args)] of [CorePlayer_APlayer] and of
    [Core_AGameMode] (the two bodies are the same). *)
Definition emit (fuel : nat) (s : Subject) (ev : EventName)
    (args : list Arg) (w : State) : option State :=
  let w0 := log (ObsEmit s ev args) w in
  match listeners_of s w0 with
  | Some a => emit_from fuel s ev args a 0 w0
  | None => Some w0
  end.

(** ** [CorePlayer_APlayerManager] *)

(** [createPlayer] as [Example_PlayerManager] has it: a new instance of
    the player class, whose constructor may subscribe listeners. *)
Definition createPlayer (p : Mod.Player) (w : State) : PlayerRef * State :=
  let lp := length (objects w) in
  let '(a, w1) := alloc_array [] w in
  let w2 := set_objects (λ h, h ++ [mkAPlayer p a]) w1 in
  (lp, foldl (λ w l, addListener (ThePlayer lp) l w) w2 (ctor_listeners prog lp p)).

(** The loop of [addPlayer] that tells the others.  No callback can
    reach the [players] map, so the iteration runs over its values as
    they are after the insertion. *)
Fixpoint notify_others (fuel : nat) (others : list PlayerRef) (lp : PlayerRef)
    (w : State) : option State :=
  match others with
  | [] => Some w
  | other :: rest =>
      if bool_decide (other ≠ lp)
      then emit fuel (ThePlayer other) OnPlayerJoinGame [ArgLP (Some lp)] w
             ≫= notify_others fuel rest lp
      else notify_others fuel rest lp w
  end.

Definition addPlayer (fuel : nat) (p : Mod.Player) (w : State) : Res PlayerRef :=
  match playerManager w with
  | None => TypeError w
  | Some m =>
      let id := Mod.GetObjId p in
      match Map_get id m with
      | Some lp => Done lp w
      | None =>
          let '(lp, w1) := createPlayer p w in
          let m' := Map_set id lp m in
          let w2 := log (ObsSet id lp) (set_playerManager (Some m') w1) in
          match notify_others fuel (Map_values m') lp w2 with
          | Some w3 => Done lp w3
          | None => OutOfFuel
          end
      end
  end.

Definition removePlayer (playerId : Z) (w : State) : Res unit :=
  match playerManager w with
  | None => TypeError w
  | Some m =>
      let w1 :=
        match Map_get playerId m with
        | Some lp =>
            let '(a, w') := alloc_array [] w in
            log (ObsDetach lp) (set_listeners (ThePlayer lp) a w')
        | None => w
        end in
      Done tt (log (ObsDelete playerId)
                 (set_playerManager (Some (Map_delete playerId m)) w1))
  end.

Definition get (p : Mod.Player) (w : State) : Res (option PlayerRef) :=
  match playerManager w with
  | None => TypeError w
  | Some m => Done (resolve p m) w
  end.

Definition getById (id : Z) (w : State) : Res (option PlayerRef) :=
  match playerManager w with
  | None => TypeError w
  | Some m => Done (Map_get id m) w
  end.

(** [tick]: [lp?.emit('OngoingPlayer')] *)
Definition tick (fuel : nat) (p : Mod.Player) (w : State) : Res unit :=
  bind (get p w) (λ lp w,
    match lp with
    | Some r => lift (emit fuel (ThePlayer r) OngoingPlayer [] w)
    | None => Done tt w
    end).

(** The forwarding methods [OnPlayerDeployed(lp)], [OnPlayerDamaged(lp,
    other, ...)], ...: each is [lp.emit(name, ...rest)]. *)
Definition PlayerManager_On (fuel : nat) (ev : EventName) (lp : PlayerRef)
    (rest : list Arg) (w : State) : Res unit :=
  match playerManager w with
  | None => TypeError w
  | Some _ => lift (emit fuel (ThePlayer lp) ev rest w)
  end.

(** ** [Core_AGameMode] *)

Definition lp (eventPlayer : Mod.Player) (w : State) : Res (option PlayerRef) :=
  get eventPlayer w.

Definition lpId (eventNumber : Z) (w : State) : Res (option PlayerRef) :=
  getById eventNumber w.

(** A protected hook [this.OnX(...)]. *)
Definition run_hook (ev : EventName) (args : list Arg) (w : State) : State :=
  run_script (hook prog ev args) (log (ObsHook ev args) w).

(** [createPlayerManager()]: a manager with an empty [players] map. *)
Definition createPlayerManager (w : State) : State :=
  set_playerManager (Some []) w.

(** The router. *)
Definition _internal (fuel : nat) (c : EngineCall) (w : State) : Res unit :=
  match c with
  | CallWorld k extra =>
      Done tt (run_hook (EvWorld k) (ArgHost <$> extra) w)
  | CallOngoingGlobal =>
      bind (lift (emit fuel TheMode OngoingGlobal [] w)) (λ _ w,
      Done tt (run_hook OngoingGlobal [] w))
  | CallOngoingPlayer eventPlayer =>
      match playerManager w with
      | None => Done tt w
      | Some _ =>
          bind (lp eventPlayer w) (λ r w,
          match r with
          | None => Done tt w
          | Some r =>
              bind (tick fuel eventPlayer w) (λ _ w,
              Done tt (run_hook OngoingPlayer [ArgLP (Some r)] w))
          end)
      end
  | CallPlayer k eventPlayer extra =>
      bind (lp eventPlayer w) (λ r w,
      match r with
      | None => Done tt w
      | Some r =>
          bind (PlayerManager_On fuel (EvPlayer k) r (ArgHost <$> extra) w) (λ _ w,
          Done tt (run_hook (EvPlayer k) (ArgLP (Some r) :: (ArgHost <$> extra)) w))
      end)
  | CallPair k eventPlayer eventOtherPlayer extra =>
      bind (lp eventPlayer w) (λ r w,
      match r with
      | None => Done tt w
      | Some r =>
          bind (lp eventOtherPlayer w) (λ other w,
          bind (PlayerManager_On fuel (EvPair k) r
                  (ArgLP other :: (ArgHost <$> extra)) w) (λ _ w,
          Done tt (run_hook (EvPair k)
                     (ArgLP (Some r) :: ArgLP other :: (ArgHost <$> extra)) w)))
      end)
  | CallJoin eventPlayer =>
      let w := match playerManager w with
               | None => createPlayerManager w
               | Some _ => w
               end in
      bind (addPlayer fuel eventPlayer w) (λ r w,
      Done tt (run_hook OnPlayerJoinGame [ArgLP (Some r)] w))
  | CallLeave eventNumber =>
      bind (lpId eventNumber w) (λ r w,
      let w := match r with
               | Some r => run_hook OnPlayerLeaveGame [ArgLP (Some r)] w
               | None => w
               end in
      removePlayer eventNumber w)
  end.

End Semantics.

(** ** A program in the shape of the Example game mode

    [Example_Player] subscribes, in its constructor, one listener of its
    own with [OnPlayerDeployed] and [OnPlayerDied], which only print.
    [Example_GameMode.OnGameModeStarted] builds an [Example_FooClass],
    which subscribes a listener with [OngoingGlobal] to the mode.  The
    listener of the player at reference [r] is [S r], that of the Foo
    object is [0]. *)
Definition Example_callback (l : Listener) (ev : EventName)
    : option (list Arg → list Cmd) :=
  match l, ev with
  | 0, OngoingGlobal => Some (λ _, [])
  | S _, EvPlayer OnPlayerDeployed => Some (λ _, [])
  | S _, EvPair OnPlayerDied => Some (λ _, [])
  | _, _ => None
  end.

Definition Example_hook (ev : EventName) (args : list Arg) : list Cmd :=
  match ev with
  | EvWorld OnGameModeStarted => [AddListener TheMode 0]
  | _ => []
  end.

Definition Example : Program :=
  mkProgram Example_callback Example_hook (λ r _, [S r]).

(** ** Derived notions used in the statements *)

(** The host calls one entry point at a time, each to completion. *)
Fixpoint run (prog : Program) (fuel : nat) (cs : list EngineCall) (w : State)
    : Res unit :=
  match cs with
  | [] => Done tt w
  | c :: cs' => bind (_internal prog fuel c w) (λ _ w', run prog fuel cs' w')
  end.

(** [addPlayer] called for each handle in turn; the instances returned. *)
Fixpoint joins (prog : Program) (fuel : nat) (ps : list Mod.Player) (w : State)
    : Res (list PlayerRef) :=
  match ps with
  | [] => Done [] w
  | p :: ps' =>
      bind (addPlayer prog fuel p w) (λ r w1,
      bind (joins prog fuel ps' w1) (λ rs w2, Done (r :: rs) w2))
  end.

(** Every array that exists keeps its content as a prefix: arrays are
    only ever pushed to. *)
Definition arrays_grow (w w' : State) : Prop :=
  ∀ a ls, arrays w !! a = Some ls → ∃ ext, arrays w' !! a = Some (ls ++ ext).

(** No array that exists is touched. *)
Definition arrays_stable (w w' : State) : Prop :=
  ∀ a ls, arrays w !! a = Some ls → arrays w' !! a = Some ls.

(** A script that never subscribes. *)
Definition unsubscribes_only (cs : list Cmd) : Prop :=
  Forall (λ c, match c with AddListener _ _ => False | RemoveListener _ _ => True end) cs.

(** The callbacks entered when [ls] is iterated: the members that
    implement [ev], in the order of [ls], one entry per occurrence. *)
Definition invocations (prog : Program) (s : Subject) (ev : EventName) (args : list Arg)
    (ls : list Listener) : list Obs :=
  (λ l, ObsInvoke s l ev args) <$> filter (implements prog ev) ls.

(** [ev] is quiet when no callback for it subscribes anything. *)
Definition quiet (prog : Program) (ev : EventName) : Prop :=
  ∀ l body args, callback prog l ev = Some body → unsubscribes_only (body args).

(** [ev] is inert when the callbacks for it leave the bus alone. *)
Definition inert (prog : Program) (ev : EventName) : Prop :=
  ∀ l body args, callback prog l ev = Some body → body args = [].

(** The state [w] with [tr] appended to its trace. *)
Definition add_trace (tr : list Obs) (w : State) : State :=
  mkState (arrays w) (objects w) (playerManager w) (gm_listeners w) (trace w ++ tr).

(** The subscribers of the player [r] in [w] (none if there is no such
    player). *)
Definition subscribers (r : PlayerRef) (w : State) : list Listener :=
  default [] (current_listeners (ThePlayer r) w).

(** The subject an observation goes through, if any. *)
Definition obs_subject (o : Obs) : option Subject :=
  match o with
  | ObsEmit s _ _ | ObsInvoke s _ _ _ => Some s
  | _ => None
  end.

(** What one [other.emit('OnPlayerJoinGame', lp)] leaves in the trace:
    the call, then the callbacks entered through [other]. *)
Definition join_notice (prog : Program) (lp other : PlayerRef) (ls : list Listener) : list Obs :=
  ObsEmit (ThePlayer other) OnPlayerJoinGame [ArgLP (Some lp)]
  :: invocations prog (ThePlayer other) OnPlayerJoinGame [ArgLP (Some lp)] ls.

(** The shape shared by the entry points that forward to the
    PlayerManager and then to the hook. *)
Definition forward (prog : Program) (fuel : nat) (ev : EventName) (r : PlayerRef)
    (rest : list Arg) (w : State) : Res unit :=
  bind (PlayerManager_On prog fuel ev r rest w) (λ _ w,
  Done tt (run_hook prog ev (ArgLP (Some r) :: rest) w)).

(** The registry of a state holds unique ids and live references. *)
Definition registry_ok (w : State) : Prop :=
  match playerManager w with
  | Some m => Map_ok m ∧ Forall (λ e, e.2 < length (objects w)) m
  | None => True
  end.

#[global] Instance registry_ok_dec w : Decision (registry_ok w).
Proof. unfold registry_ok, Map_ok. destruct (playerManager w); apply _. Defined.

(** Every [listeners] field holds an array that exists. *)
Definition store_ok (w : State) : Prop :=
  gm_listeners w < length (arrays w)
  ∧ Forall (λ o, listeners o < length (arrays w)) (objects w).

#[global] Instance store_ok_dec w : Decision (store_ok w).
Proof. unfold store_ok. apply _. Defined.

(** Two states with the same store: they differ at most in the ghost
    trace. *)
Definition same_store (w1 w2 : State) : Prop :=
  arrays w1 = arrays w2 ∧ objects w1 = objects w2
  ∧ playerManager w1 = playerManager w2 ∧ gm_listeners w1 = gm_listeners w2.

(** An observation of the PlayerManager at work: an [emit] through a
    logical player, a callback entered through one, or a mutation of the
    registry. *)
Definition is_update (o : Obs) : bool :=
  match o with
  | ObsEmit (ThePlayer _) _ _ | ObsInvoke (ThePlayer _) _ _ _ => true
  | ObsSet _ _ | ObsDetach _ | ObsDelete _ => true
  | _ => false
  end.

Definition is_hook (o : Obs) : bool :=
  match o with
  | ObsHook _ _ => true
  | _ => false
  end.

(** In [delta], all the work of the PlayerManager comes before any hook
    is entered. *)
Definition update_before_hook (delta : list Obs) : Prop :=
  ∀ i j h o,
    delta !! i = Some h → is_hook h = true →
    delta !! j = Some o → is_update o = true →
    j < i.

(** The call [c] in the state [w], if it returns, has done all its
    PlayerManager work before its hook. *)
Definition updates_precede_hook (prog : Program) (fuel : nat) (c : EngineCall)
    (w : State) : Prop :=
  ∀ w', _internal prog fuel c w = Done tt w' →
        update_before_hook (drop (length (trace w)) (trace w')).

(** A second sample program: two observers of the mode with an
    [OngoingGlobal] callback, the first of which unsubscribes the second while it runs, one observer
    ([3]) without that capability, and players whose constructor
    subscribes a listener ([4 + r]) with an [OnPlayerJoinGame] callback. *)
Definition Sample_callback (l : Listener) (ev : EventName)
    : option (list Arg → list Cmd) :=
  match l, ev with
  | 1, OngoingGlobal => Some (λ _, [RemoveListener TheMode 2])
  | 2, OngoingGlobal => Some (λ _, [])
  | S (S (S (S _))), OnPlayerJoinGame => Some (λ _, [])
  | _, _ => None
  end.

Definition Sample : Program :=
  mkProgram Sample_callback (λ _ _, []) (λ r _, [4 + r]).

Definition alice : Mod.Player := Mod.mkPlayer 7 true.
Definition bob : Mod.Player := Mod.mkPlayer 9 true.
Definition carol : Mod.Player := Mod.mkPlayer 12 true.
(** a handle that the host no longer holds valid *)
Definition ghost : Mod.Player := Mod.mkPlayer 7 false.

(** The Example mode after it started and [alice] joined. *)
Definition lobby : State :=
  mkState [[0]; [1]]
          [mkAPlayer alice 1]
          (Some [(7%Z, 0)])
          0
          [ObsHook (EvWorld OnGameModeStarted) [];
           ObsSet 7 0;
           ObsHook OnPlayerJoinGame [ArgLP (Some 0)]].

(** The mode with the three observers subscribed. *)
Definition ticking : State := mkState [[1; 3; 2]] [] None 0 [].

(** The Sample mode after [alice] joined. *)
Definition hall : State :=
  mkState [[]; [4]] [mkAPlayer alice 1] (Some [(7%Z, 0)]) 0
          [ObsSet 7 0; ObsHook OnPlayerJoinGame [ArgLP (Some 0)]].

(** ** Further notions: the rest of the PlayerManager, well-formed
    stores, and the throttled observer of the Example mode *)

(** [allPlayers()]: [[...this.players.values()]], a new array holding the
    instances in the order of the map. *)
Definition allPlayers (w : State) : Res (list PlayerRef) :=
  match playerManager w with
  | None => TypeError w
  | Some m => Done (Map_values m) w
  end.

(** The entry points whose first step is [this.lp(...)] or
    [this.lpId(...)], with no test of [this.playerManager] before it. *)
Definition needs_manager (c : EngineCall) : bool :=
  match c with
  | CallPlayer _ _ _ | CallPair _ _ _ _ | CallLeave _ => true
  | _ => false
  end.

(** The handle an entry point resolves to the acting player. *)
Definition acting_player (c : EngineCall) : option Mod.Player :=
  match c with
  | CallOngoingPlayer p | CallPlayer _ p _ | CallPair _ p _ _ => Some p
  | _ => None
  end.

(** What a player event is dispatched as, on the registry [m]: the name
    of the event, the instance of the acting player, and the arguments
    that follow it ([None] when the acting handle does not resolve or the
    call is no player event). *)
Definition dispatched (c : EngineCall) (m : PlayersMap)
    : option (EventName * PlayerRef * list Arg) :=
  match c with
  | CallOngoingPlayer p =>
      (λ r, (OngoingPlayer, r, [])) <$> resolve p m
  | CallPlayer k p extra =>
      (λ r, (EvPlayer k, r, ArgHost <$> extra)) <$> resolve p m
  | CallPair k p q extra =>
      (λ r, (EvPair k, r, ArgLP (resolve q m) :: (ArgHost <$> extra))) <$> resolve p m
  | _ => None
  end.

(** No two [listeners] fields hold the same array. *)
Definition no_alias (w : State) : Prop :=
  NoDup (gm_listeners w :: (listeners <$> objects w)).

(** No instance is registered under two ids. *)
Definition instances_distinct (w : State) : Prop :=
  match playerManager w with
  | Some m => NoDup m.*2
  | None => True
  end.

(** A store where every [listeners] field holds an array of its own
    that exists. *)
Definition heap_ok (w : State) : Prop := store_ok w ∧ no_alias w.

(** The registry part: unique ids, live references, distinct instances. *)
Definition registry_sound (w : State) : Prop :=
  registry_ok w ∧ instances_distinct w.

Definition well_formed (w : State) : Prop :=
  store_ok w ∧ registry_ok w ∧ no_alias w ∧ instances_distinct w.

#[global] Instance well_formed_dec w : Decision (well_formed w).
Proof.
  unfold well_formed, no_alias, instances_distinct.
  destruct (playerManager w); apply _.
Defined.

(** A script that never unsubscribes. *)
Definition subscribes_only (cs : list Cmd) : Prop :=
  Forall (λ c, match c with AddListener _ _ => True | RemoveListener _ _ => False end) cs.

(** [ev] is eager when no callback for it unsubscribes anything. *)
Definition eager (prog : Program) (ev : EventName) : Prop :=
  ∀ l body args, callback prog l ev = Some body → subscribes_only (body args).

(** Successive members of [ts] are at least [d] apart. *)
Definition spaced (d : Z) (ts : list Z) : Prop :=
  ∀ i t1 t2, ts !! i = Some t1 → ts !! S i = Some t2 → (d ≤ t2 - t1)%Z.

(** [Example_FooClass]: the observer of [OngoingGlobal] that shows its
    message at most once per [interval].  [Date.now()] is an argument
    (an integer number of milliseconds, on which the subtraction of the
    source is exact); what [onTick] returns besides the new object says
    whether the message was shown. *)
Module Example_FooClass.

Record t := mk {
  lastTime : Z;
  interval : Z
}.

(** [private lastTime = 0; private interval = 4000] *)
Definition new : t := mk 0 4000.

Definition onTick (now : Z) (foo : t) : t * bool :=
  if (now - lastTime foo <? interval foo)%Z then (foo, false)
  else (mk now (interval foo), true).

(** [onTick] at each clock reading of [nows] in turn; the readings at
    which the message was shown. *)
Fixpoint ticks (nows : list Z) (foo : t) : t * list Z :=
  match nows with
  | [] => (foo, [])
  | now :: rest =>
      let '(foo1, shown) := onTick now foo in
      let '(foo2, shows) := ticks rest foo1 in
      (foo2, if shown then now :: shows else shows)
  end.

End Example_FooClass.

(** Two more sample programs: in [Chain] the [OngoingGlobal] callback
    of observer [1] subscribes observer [2] to the mode; in [Selfish] it
    subscribes itself again. *)
Definition Chain : Program :=
  mkProgram
    (λ l ev, match l, ev with
             | 1, OngoingGlobal => Some (λ _, [AddListener TheMode 2])
             | 2, OngoingGlobal => Some (λ _, [])
             | _, _ => None
             end)
    (λ _ _, []) (λ _ _, []).

Definition Selfish : Program :=
  mkProgram
    (λ l ev, match l, ev with
             | 1, OngoingGlobal => Some (λ _, [AddListener TheMode 1])
             | _, _ => None
             end)
    (λ _ _, []) (λ _ _, []).

(** The mode with the single observer [1]. *)
Definition solo : State := mkState [[1]] [] None 0 [].

(** [lobby] after [alice] left, and after she joined again. *)
Definition lobby_left : State :=
  mkState [[0]; [1]; []] [mkAPlayer alice 2] (Some []) 0
          (trace lobby ++ [ObsDetach 0; ObsDelete 7]).

Definition lobby_rejoined : State :=
  mkState [[0]; [1]; []; [2]] [mkAPlayer alice 2; mkAPlayer alice 3]
          (Some [(7%Z, 1)]) 0
          (trace lobby ++ [ObsDetach 0; ObsDelete 7; ObsSet 7 1]).

(** [hall] after [bob] joined. *)
Definition hall_two : State :=
  mkState [[]; [4]; [5]] [mkAPlayer alice 1; mkAPlayer bob 2]
          (Some [(7%Z, 0); (9%Z, 1)]) 0
          (trace hall ++
           [ObsSet 9 1;
            ObsEmit (ThePlayer 0) OnPlayerJoinGame [ArgLP (Some 1)];
            ObsInvoke (ThePlayer 0) 4 OnPlayerJoinGame [ArgLP (Some 1)]]).

(** ** Facts about the map *)

Lemma Map_get_set_eq id r m : Map_get id (Map_set id r m) = Some r.
Proof.
  induction m as [|[k v] m IH]; simpl.
  - by rewrite bool_decide_eq_true_2.
  - destruct (decide (k = id)) as [->|Hne].
    + rewrite bool_decide_eq_true_2 by done. simpl.
      by rewrite bool_decide_eq_true_2.
    + rewrite bool_decide_eq_false_2 by done. simpl.
      by rewrite bool_decide_eq_false_2.
Qed.

Lemma Map_get_set_ne id id' r m :
  id ≠ id' → Map_get id' (Map_set id r m) = Map_get id' m.
Proof.
  intros Hne. induction m as [|[k v] m IH]; simpl.
  - by rewrite bool_decide_eq_false_2.
  - destruct (decide (k = id)) as [->|Hk].
    + rewrite bool_decide_eq_true_2 by done. simpl.
      by rewrite !bool_decide_eq_false_2.
    + rewrite (bool_decide_eq_false_2 (k = id)) by done. simpl.
      by rewrite IH.
Qed.

(** A key that is absent is appended. *)
Lemma Map_set_fresh id r m :
  Map_get id m = None → Map_set id r m = m ++ [(id, r)].
Proof.
  induction m as [|[k v] m IH]; simpl; [done|].
  case_bool_decide; [done|]. intros Hm. by rewrite IH.
Qed.

Lemma Map_get_None id m : Map_get id m = None ↔ id ∉ m.*1.
Proof.
  induction m as [|[k v] m IH]; simpl.
  - split; [intros _; apply not_elem_of_nil | done].
  - rewrite not_elem_of_cons, <- IH. case_bool_decide as Hk.
    + split; [done | intros [Hne _]; by symmetry in Hk].
    + split; [intros Hm; split; [by intros ->| done] | by intros [_ Hm]].
Qed.

Lemma Map_get_Some id r m : Map_get id m = Some r → (id, r) ∈ m.
Proof.
  induction m as [|[k v] m IH]; simpl; [done|].
  case_bool_decide; subst.
  - intros [= ->]. apply elem_of_cons; by left.
  - intros Hm. apply elem_of_cons; right; auto.
Qed.

Lemma Map_get_elem id r m : Map_ok m → (id, r) ∈ m → Map_get id m = Some r.
Proof.
  unfold Map_ok. induction m as [|[k v] m IH]; simpl.
  - intros _ H. by apply elem_of_nil in H.
  - rewrite NoDup_cons. intros [Hk Hm] [Heq|Hin]%elem_of_cons.
    + injection Heq as -> ->. by rewrite bool_decide_eq_true_2.
    + case_bool_decide; subst.
      * exfalso. apply Hk. apply list_elem_of_fmap. by exists (id, r).
      * auto.
Qed.

Lemma Map_get_delete_eq id m : Map_get id (Map_delete id m) = None.
Proof.
  apply Map_get_None. unfold Map_delete.
  intros ([k v] & -> & Hin)%list_elem_of_fmap.
  apply list_elem_of_filter in Hin as [Hne _]. by apply Hne.
Qed.

Lemma Map_delete_absent id m : Map_get id m = None → Map_delete id m = m.
Proof.
  unfold Map_delete. induction m as [|[k v] m IH]; [done|].
  cbn [Map_get]. case_bool_decide; [done|]. intros Hm.
  rewrite (filter_cons_True (λ e : Z * PlayerRef, e.1 ≠ id)) by done.
  f_equal. by apply IH.
Qed.

Lemma Map_ok_set_fresh id r m :
  Map_ok m → Map_get id m = None → Map_ok (Map_set id r m).
Proof.
  unfold Map_ok. intros Hm Hid. rewrite Map_set_fresh by done.
  rewrite fmap_app. simpl. apply NoDup_app. split; [done|].
  split; [|apply NoDup_singleton].
  intros k Hk ->%list_elem_of_singleton. by apply Map_get_None in Hid.
Qed.

(** ** Facts about the bus operations *)

Lemma arrays_grow_refl w : arrays_grow w w.
Proof. intros a ls H. exists []. by rewrite app_nil_r. Qed.

Lemma arrays_grow_trans w1 w2 w3 :
  arrays_grow w1 w2 → arrays_grow w2 w3 → arrays_grow w1 w3.
Proof.
  intros H12 H23 a ls H. destruct (H12 _ _ H) as [e1 H1].
  destruct (H23 _ _ H1) as [e2 H2]. exists (e1 ++ e2). by rewrite app_assoc.
Qed.

Lemma arrays_stable_refl w : arrays_stable w w.
Proof. by intros a ls H. Qed.

Lemma arrays_stable_grow w w' : arrays_stable w w' → arrays_grow w w'.
Proof. intros Hs a ls H. exists []. rewrite app_nil_r. by apply Hs. Qed.

Lemma arrays_stable_trans w1 w2 w3 :
  arrays_stable w1 w2 → arrays_stable w2 w3 → arrays_stable w1 w3.
Proof. intros H12 H23 a ls H. by apply H23, H12. Qed.

Lemma set_listeners_fields s a w :
  arrays (set_listeners s a w) = arrays w
  ∧ trace (set_listeners s a w) = trace w
  ∧ playerManager (set_listeners s a w) = playerManager w
  ∧ length (objects (set_listeners s a w)) = length (objects w).
Proof.
  destruct s as [|r]; simpl; [done|].
  destruct (objects w !! r); simpl; rewrite ?length_insert; done.
Qed.

Lemma addListener_fields s l w :
  trace (addListener s l w) = trace w
  ∧ playerManager (addListener s l w) = playerManager w
  ∧ objects (addListener s l w) = objects w
  ∧ gm_listeners (addListener s l w) = gm_listeners w.
Proof.
  unfold addListener. destruct (listeners_of s w) as [a|]; [|done].
  destruct (arrays w !! a); done.
Qed.

Lemma removeListener_fields s l w :
  trace (removeListener s l w) = trace w
  ∧ playerManager (removeListener s l w) = playerManager w
  ∧ length (objects (removeListener s l w)) = length (objects w).
Proof.
  unfold removeListener. destruct (current_listeners s w) as [ls|]; [|done].
  simpl. destruct (set_listeners_fields s (length (arrays w))
    (set_arrays (λ h, h ++ [filter (λ l', l' ≠ l) ls]) w)) as (_ & -> & -> & ->).
  done.
Qed.

Lemma addListener_grow s l w : arrays_grow w (addListener s l w).
Proof.
  unfold addListener. destruct (listeners_of s w) as [a|]; [|apply arrays_grow_refl].
  destruct (arrays w !! a) as [ls|] eqn:Ha; [|apply arrays_grow_refl].
  intros a' ls' H'. simpl. destruct (decide (a' = a)) as [->|Hne].
  - exists [l]. rewrite list_lookup_insert_eq by by eapply lookup_lt_Some.
    congruence.
  - exists []. rewrite list_lookup_insert_ne by done. by rewrite app_nil_r.
Qed.

Lemma removeListener_stable s l w : arrays_stable w (removeListener s l w).
Proof.
  unfold removeListener.
  destruct (current_listeners s w) as [ls|]; [|apply arrays_stable_refl].
  simpl. intros a ls' H.
  destruct (set_listeners_fields s (length (arrays w))
    (set_arrays (λ h, h ++ [filter (λ l', l' ≠ l) ls]) w)) as (-> & _).
  simpl. by apply lookup_app_l_Some.
Qed.

Lemma run_cmd_fields c w :
  trace (run_cmd c w) = trace w
  ∧ playerManager (run_cmd c w) = playerManager w
  ∧ length (objects (run_cmd c w)) = length (objects w).
Proof.
  destruct c as [s l|s l]; simpl.
  - destruct (addListener_fields s l w) as (-> & -> & -> & _). done.
  - apply removeListener_fields.
Qed.

Lemma run_cmd_grow c w : arrays_grow w (run_cmd c w).
Proof.
  destruct c; simpl; [apply addListener_grow|].
  apply arrays_stable_grow, removeListener_stable.
Qed.

Lemma run_script_fields cs w :
  trace (run_script cs w) = trace w
  ∧ playerManager (run_script cs w) = playerManager w
  ∧ length (objects (run_script cs w)) = length (objects w).
Proof.
  unfold run_script. revert w. induction cs as [|c cs IH]; intros w; simpl; [done|].
  destruct (IH (run_cmd c w)) as (-> & -> & ->). apply run_cmd_fields.
Qed.

Lemma run_script_grow cs w : arrays_grow w (run_script cs w).
Proof.
  unfold run_script. revert w. induction cs as [|c cs IH]; intros w; simpl.
  - apply arrays_grow_refl.
  - eapply arrays_grow_trans; [apply run_cmd_grow | apply IH].
Qed.

Lemma run_script_stable cs w :
  unsubscribes_only cs → arrays_stable w (run_script cs w).
Proof.
  unfold run_script, unsubscribes_only. revert w.
  induction cs as [|c cs IH]; intros w Hcs; simpl; [apply arrays_stable_refl|].
  apply Forall_cons in Hcs as [Hc Hcs].
  eapply arrays_stable_trans; [|by apply IH].
  destruct c; [done|]. apply removeListener_stable.
Qed.

(** ** Facts about [emit] *)

Section EmitFacts.

Variable prog : Program.

Lemma invocations_cons s ev args l ls :
  invocations prog s ev args (l :: ls) =
  (if decide (implements prog ev l) then [ObsInvoke s l ev args] else [])
    ++ invocations prog s ev args ls.
Proof.
  unfold invocations. rewrite filter_cons. by destruct (decide _).
Qed.

Lemma invocations_app s ev args ls1 ls2 :
  invocations prog s ev args (ls1 ++ ls2) =
  invocations prog s ev args ls1 ++ invocations prog s ev args ls2.
Proof. unfold invocations. by rewrite filter_app, fmap_app. Qed.

Lemma invoke_fields s ev args l w :
  trace (invoke prog s ev args l w) =
    trace w ++ (if decide (implements prog ev l) then [ObsInvoke s l ev args] else [])
  ∧ playerManager (invoke prog s ev args l w) = playerManager w
  ∧ length (objects (invoke prog s ev args l w)) = length (objects w).
Proof.
  unfold invoke. destruct (decide (implements prog ev l)) as [[body Hc]|Hn].
  - rewrite Hc.
    by destruct (run_script_fields (body args) (log (ObsInvoke s l ev args) w))
      as (-> & -> & ->).
  - destruct (callback prog l ev) as [body|] eqn:Hc.
    + exfalso. apply Hn. by exists body.
    + by rewrite app_nil_r.
Qed.

Lemma invoke_grow s ev args l w : arrays_grow w (invoke prog s ev args l w).
Proof.
  unfold invoke. destruct (callback prog l ev) as [body|]; [|apply arrays_grow_refl].
  intros a ls H. by apply (run_script_grow (body args) (log (ObsInvoke s l ev args) w)).
Qed.

(** The loop of [emit] on the array [a], from index [i]: the array it
    iterates has, at the end, its content at the start as a prefix, and
    the callbacks entered are those of its members from [i] on. *)
Lemma emit_from_spec fuel s ev args a i w w' ls :
  arrays w !! a = Some ls →
  emit_from prog fuel s ev args a i w = Some w' →
  ∃ ext, arrays w' !! a = Some (ls ++ ext)
         ∧ trace w' = trace w ++ invocations prog s ev args (drop i (ls ++ ext))
         ∧ playerManager w' = playerManager w
         ∧ length (objects w') = length (objects w)
         ∧ arrays_grow w w'.
Proof.
  revert i w ls. induction fuel as [|fuel IH]; intros i w ls Ha; simpl;
    rewrite Ha; simpl.
  - destruct (ls !! i) as [l|] eqn:Hi; [done|]. intros [= <-].
    exists []. rewrite !app_nil_r. split; [done|].
    rewrite drop_ge by by apply lookup_ge_None. simpl.
    rewrite app_nil_r. repeat split; auto using arrays_grow_refl.
  - destruct (ls !! i) as [l|] eqn:Hi.
    + intros He.
      destruct (invoke_grow s ev args l w a ls Ha) as [e1 Ha1].
      destruct (IH _ _ _ Ha1 He) as (e2 & Ha' & Htr & Hpm & Hob & Hgr).
      destruct (invoke_fields s ev args l w) as (Htr1 & Hpm1 & Hob1).
      exists (e1 ++ e2). rewrite app_assoc. split; [done|].
      rewrite Htr, Htr1, <- app_assoc.
      assert (Hl : ((ls ++ e1) ++ e2) !! i = Some l).
      { rewrite <- app_assoc. by apply lookup_app_l_Some. }
      rewrite (drop_S _ _ _ Hl), invocations_cons.
      repeat split; [congruence..|].
      eapply arrays_grow_trans; [apply invoke_grow | done].
    + intros [= <-]. exists []. rewrite !app_nil_r. split; [done|].
      rewrite drop_ge by by apply lookup_ge_None. simpl.
      rewrite app_nil_r. repeat split; auto using arrays_grow_refl.
Qed.

(** More fuel does not change a result. *)
Lemma emit_from_fuel_mono fuel fuel' s ev args a i w w' :
  fuel ≤ fuel' →
  emit_from prog fuel s ev args a i w = Some w' →
  emit_from prog fuel' s ev args a i w = Some w'.
Proof.
  revert fuel' i w. induction fuel as [|fuel IH]; intros fuel' i w Hle; simpl.
  - destruct (arrays w !! a ≫= _) eqn:Hl; [done|]. intros [= <-].
    destruct fuel'; simpl; by rewrite Hl.
  - destruct fuel' as [|fuel']; [lia|]. simpl.
    destruct (arrays w !! a ≫= _); [|done]. apply IH. lia.
Qed.

Lemma invoke_stable s ev args l w :
  quiet prog ev → arrays_stable w (invoke prog s ev args l w).
Proof.
  intros Hq. unfold invoke.
  destruct (callback prog l ev) as [body|] eqn:Hc; [|apply arrays_stable_refl].
  intros a ls H.
  by apply (run_script_stable (body args) (log (ObsInvoke s l ev args) w)); eauto.
Qed.

(** On a quiet prog event the loop ends within the length of the array,
    and the array is as it was. *)
Lemma emit_from_quiet fuel s ev args a i w ls :
  quiet prog ev →
  arrays w !! a = Some ls →
  length ls ≤ i + fuel →
  ∃ w', emit_from prog fuel s ev args a i w = Some w'
        ∧ arrays w' !! a = Some ls.
Proof.
  intros Hq. revert i w. induction fuel as [|fuel IH]; intros i w Ha Hlen; simpl;
    rewrite Ha; simpl.
  - rewrite lookup_ge_None_2 by lia. eauto.
  - destruct (ls !! i) as [l|] eqn:Hi; [|eauto].
    apply IH; [|lia]. by apply invoke_stable.
Qed.

End EmitFacts.

Section EmitCalls.

Variable prog : Program.

(** One call of [emit]: the array in the [listeners] field at the call
    is the one iterated; at the end it holds what it held plus what
    was pushed meanwhile ([ext]), and exactly its members were
    invoked, in order. *)
Lemma emit_spec fuel s ev args w w' ls :
  current_listeners s w = Some ls →
  emit prog fuel s ev args w = Some w' →
  ∃ ext, trace w' = trace w ++ ObsEmit s ev args :: invocations prog s ev args (ls ++ ext)
         ∧ playerManager w' = playerManager w
         ∧ length (objects w') = length (objects w)
         ∧ arrays_grow w w'.
Proof.
  unfold current_listeners, emit. intros Hcur.
  change (listeners_of s (log (ObsEmit s ev args) w)) with (listeners_of s w).
  destruct (listeners_of s w) as [a|]; [|done]. simpl in Hcur. intros He.
  destruct (emit_from_spec prog fuel s ev args a 0 (log (ObsEmit s ev args) w) w' ls Hcur He)
    as (ext & _ & Htr & Hpm & Hob & Hgr).
  exists ext. simpl in Htr. rewrite Htr, <- app_assoc. done.
Qed.

(** One call of [emit], whatever the store: the observations it adds
    are its own marker and callbacks entered for this subject, event
    and arguments; the listeners iterated ([ls]) begin with the
    subscribers at the call. *)
Lemma emit_frame fuel s ev args w w' :
  emit prog fuel s ev args w = Some w' →
  ∃ ls, trace w' = trace w ++ ObsEmit s ev args :: invocations prog s ev args ls
        ∧ playerManager w' = playerManager w
        ∧ length (objects w') = length (objects w)
        ∧ arrays_grow w w'
        ∧ ∀ ls0, current_listeners s w = Some ls0 → ∃ ext, ls = ls0 ++ ext.
Proof.
  destruct (current_listeners s w) as [ls|] eqn:Hcur.
  - intros He. destruct (emit_spec _ _ _ _ _ _ _ Hcur He) as (ext & Htr & Hpm & Hob & Hgr).
    exists (ls ++ ext). repeat (split; [done|]). intros ls0 [= <-]. by exists ext.
  - unfold current_listeners in Hcur. unfold emit.
    change (listeners_of s (log (ObsEmit s ev args) w)) with (listeners_of s w).
    destruct (listeners_of s w) as [a|]; simpl in Hcur.
    + destruct fuel; simpl; rewrite Hcur; simpl; intros [= <-];
        exists []; repeat split; try exact (arrays_grow_refl w); done.
    + intros [= <-]. exists []; repeat split; try exact (arrays_grow_refl w); done.
Qed.

Lemma emit_fuel_mono fuel fuel' s ev args w w' :
  fuel ≤ fuel' →
  emit prog fuel s ev args w = Some w' →
  emit prog fuel' s ev args w = Some w'.
Proof.
  unfold emit. intros Hle.
  destruct (listeners_of s (log (ObsEmit s ev args) w)); [|done].
  by apply emit_from_fuel_mono.
Qed.

(** On a quiet event, [emit] returns, and the callbacks entered are
    exactly those of the subscribers at the call. *)
Lemma emit_quiet fuel s ev args w ls :
  quiet prog ev →
  current_listeners s w = Some ls →
  length ls ≤ fuel →
  ∃ w', emit prog fuel s ev args w = Some w'
        ∧ trace w' = trace w ++ ObsEmit s ev args :: invocations prog s ev args ls.
Proof.
  intros Hq Hcur Hlen.
  assert (∃ w', emit prog fuel s ev args w = Some w' ∧ current_listeners s w = Some ls
                ∧ ∀ a, listeners_of s w = Some a → arrays w' !! a = Some ls)
    as (w' & He & _ & Hsame).
  { unfold current_listeners in Hcur. unfold emit.
    change (listeners_of s (log (ObsEmit s ev args) w)) with (listeners_of s w).
    destruct (listeners_of s w) as [a|] eqn:Hs; [|done]. simpl in Hcur.
    destruct (emit_from_quiet prog fuel s ev args a 0 (log (ObsEmit s ev args) w) ls)
      as (w' & He & Ha'); [done..|].
    exists w'. repeat split; [done| |].
    - unfold current_listeners. by rewrite Hs.
    - by intros ? [= <-]. }
  exists w'. split; [done|].
  pose proof Hcur as Hcur'. unfold current_listeners in Hcur'.
  destruct (listeners_of s w) as [a|] eqn:Hs; [|done]. simpl in Hcur'.
  unfold emit in He.
  change (listeners_of s (log (ObsEmit s ev args) w)) with (listeners_of s w) in He.
  rewrite Hs in He.
  destruct (emit_from_spec prog fuel s ev args a 0
              (log (ObsEmit s ev args) w) w' ls Hcur' He)
    as (ext & Ha' & Htr & _).
  rewrite (Hsame a eq_refl) in Ha'. injection Ha' as Ha'.
  assert (ext = []) as ->.
  { apply (f_equal length) in Ha'. rewrite length_app in Ha'.
    destruct ext; [done|simpl in Ha'; lia]. }
  rewrite app_nil_r in Htr. simpl in Htr. by rewrite Htr, <- app_assoc.
Qed.

(** On a quiet event [emit] returns from every state. *)
Lemma emit_quiet_returns s ev args w :
  quiet prog ev → ∃ fuel w', emit prog fuel s ev args w = Some w'.
Proof.
  intros Hq. destruct (current_listeners s w) as [ls|] eqn:Hcur.
  - destruct (emit_quiet (length ls) s ev args w ls) as (w' & He & _); eauto.
  - exists 0. unfold current_listeners in Hcur. unfold emit.
    change (listeners_of s (log (ObsEmit s ev args) w)) with (listeners_of s w).
    destruct (listeners_of s w) as [a|]; simpl in *; [rewrite Hcur|]; eauto.
Qed.

End EmitCalls.

(** ** The sample states are reached *)

Lemma lobby_reached :
  run Example 0 [CallWorld OnGameModeStarted []; CallJoin alice] new_GameMode
  = Done tt lobby.
Proof. reflexivity. Qed.

(** ** The registry *)

Lemma registry_ok_lookup w m id r :
  registry_ok w → playerManager w = Some m → Map_get id m = Some r →
  is_Some (objects w !! r).
Proof.
  unfold registry_ok. intros Hok Hm Hget. rewrite Hm in Hok.
  destruct Hok as [_ Hrefs]. apply lookup_lt_is_Some.
  rewrite Forall_forall in Hrefs. by apply (Hrefs (id, r)), Map_get_Some.
Qed.

(** [addPlayer] for an id with an entry. *)
Lemma addPlayer_duplicate_lookup {prog} fuel p w m r :
  playerManager w = Some m →
  Map_get (Mod.GetObjId p) m = Some r →
  addPlayer prog fuel p w = Done r w.
Proof.
  intros Hm Hget. unfold addPlayer. by rewrite Hm, Hget.
Qed.

Lemma emit_no_listeners prog fuel s ev args w :
  current_listeners s w = Some [] →
  emit prog fuel s ev args w = Some (log (ObsEmit s ev args) w).
Proof.
  unfold current_listeners, emit.
  change (listeners_of s (log (ObsEmit s ev args) w)) with (listeners_of s w).
  destruct (listeners_of s w) as [a|]; [|done]. simpl. intros Ha.
  destruct fuel; simpl; by rewrite Ha.
Qed.

(** What [removePlayer] does, on a state with a PlayerManager. *)
Lemma removePlayer_spec id w m :
  playerManager w = Some m →
  ∃ w1,
    removePlayer id w = Done tt w1
    ∧ playerManager w1 = Some (Map_delete id m)
    ∧ getById id w1 = Done None w1
    ∧ arrays_stable w w1
    ∧ (∀ r, Map_get id m = Some r →
         trace w1 = trace w ++ [ObsDetach r; ObsDelete id]
         ∧ (is_Some (objects w !! r) → current_listeners (ThePlayer r) w1 = Some []))
    ∧ (Map_get id m = None →
         trace w1 = trace w ++ [ObsDelete id] ∧ same_store w1 w)
    ∧ ∃ w2, removePlayer id w1 = Done tt w2 ∧ same_store w2 w1.
Proof.
  intros Hm. unfold removePlayer at 1. rewrite Hm.
  eexists. split; [reflexivity|].
  split; [done|]. split; [|split; [|split; [|split]]].
  - unfold getById. simpl. by rewrite Map_get_delete_eq.
  - intros a ls Ha. destruct (Map_get id m) as [r|]; [|done]. simpl.
    destruct (objects w !! r); simpl; by apply lookup_app_l_Some.
  - intros r Hr. rewrite Hr. split.
    + simpl. destruct (objects w !! r); simpl; by rewrite <- app_assoc.
    + intros [o Ho]. unfold current_listeners. simpl. rewrite Ho. simpl.
      rewrite list_lookup_insert_eq by by eapply lookup_lt_Some.
      simpl. by rewrite lookup_app_r, Nat.sub_diag.
  - intros Hnone. rewrite Hnone. split; [done|]. unfold same_store. simpl.
    rewrite Map_delete_absent by done. by rewrite Hm.
  - unfold removePlayer. simpl. rewrite Map_get_delete_eq.
    eexists. split; [reflexivity|]. unfold same_store. simpl.
    by rewrite Map_delete_absent by apply Map_get_delete_eq.
Qed.

(** ** The router *)

Section RouterFacts.

Variable prog : Program.

Lemma run_hook_fields ev args w :
  trace (run_hook prog ev args w) = trace w ++ [ObsHook ev args]
  ∧ playerManager (run_hook prog ev args w) = playerManager w
  ∧ length (objects (run_hook prog ev args w)) = length (objects w).
Proof.
  unfold run_hook.
  by destruct (run_script_fields (hook prog ev args) (log (ObsHook ev args) w))
    as (-> & -> & ->).
Qed.

Lemma forward_spec fuel ev r rest w w' :
  forward prog fuel ev r rest w = Done tt w' →
  ∃ ls, trace w' = trace w ++ ObsEmit (ThePlayer r) ev rest
                     :: invocations prog (ThePlayer r) ev rest ls
                     ++ [ObsHook ev (ArgLP (Some r) :: rest)]
        ∧ playerManager w' = playerManager w
        ∧ length (objects w') = length (objects w)
        ∧ ∀ ls0, current_listeners (ThePlayer r) w = Some ls0 → ∃ ext, ls = ls0 ++ ext.
Proof.
  unfold forward, PlayerManager_On.
  destruct (playerManager w) as [m|] eqn:Hm; [|done].
  destruct (emit prog fuel (ThePlayer r) ev rest w) as [w1|] eqn:He; [|done].
  simpl. intros [= <-].
  destruct (emit_frame prog _ _ _ _ _ _ He) as (ls & Htr & Hpm & Hob & _ & Hext).
  destruct (run_hook_fields ev (ArgLP (Some r) :: rest) w1) as (-> & -> & ->).
  exists ls. rewrite Htr, <- app_assoc. simpl. split; [done|].
  split; [congruence|]. split; [congruence|done].
Qed.

Lemma forward_returns ev r rest w :
  quiet prog ev → is_Some (playerManager w) →
  ∃ fuel w', forward prog fuel ev r rest w = Done tt w'.
Proof.
  intros Hq [m Hm]. destruct (emit_quiet_returns prog (ThePlayer r) ev rest w Hq)
    as (fuel & w1 & He).
  exists fuel. unfold forward, PlayerManager_On. rewrite Hm, He. simpl. eauto.
Qed.

End RouterFacts.

Section InvocationFacts.

Variable prog : Program.

Lemma invocations_elem s ev args ls l :
  ObsInvoke s l ev args ∈ invocations prog s ev args ls
  ↔ l ∈ ls ∧ implements prog ev l.
Proof.
  unfold invocations. rewrite list_elem_of_fmap. split.
  - intros (l' & [= ->] & Hin). by apply list_elem_of_filter in Hin as [? ?].
  - intros [Hin Himp]. exists l. split; [done|]. by apply list_elem_of_filter.
Qed.

Lemma invocations_NoDup s ev args ls :
  NoDup ls → NoDup (invocations prog s ev args ls).
Proof.
  intros Hnd. unfold invocations. apply NoDup_fmap_2.
  - by intros l1 l2 [= ->].
  - by apply NoDup_filter.
Qed.

End InvocationFacts.

Section JoinFacts.

Variable prog : Program.

Lemma createPlayer_spec p w :
  (createPlayer prog p w).1 = length (objects w)
  ∧ length (objects (createPlayer prog p w).2) = S (length (objects w))
  ∧ playerManager (createPlayer prog p w).2 = playerManager w
  ∧ trace (createPlayer prog p w).2 = trace w.
Proof.
  unfold createPlayer. simpl. split; [done|].
  generalize (ctor_listeners prog (length (objects w)) p). intros ls.
  set (w2 := set_objects _ _).
  assert (H2 : length (objects w2) = S (length (objects w))
               ∧ playerManager w2 = playerManager w ∧ trace w2 = trace w).
  { subst w2. simpl. rewrite length_app. simpl. split; [lia|done]. }
  revert H2. generalize w2. clear w2.
  induction ls as [|l ls IH]; intros w2 H2; simpl; [done|].
  apply IH. destruct (addListener_fields (ThePlayer (length (objects w))) l w2)
    as (-> & -> & -> & _). done.
Qed.

Lemma notify_others_spec fuel others lp w w' :
  notify_others prog fuel others lp w = Some w' →
  ∃ segs, trace w' = trace w ++ concat segs
          ∧ Forall2 (λ other seg, ∃ ls, seg = join_notice prog lp other ls)
                    (filter (λ other, other ≠ lp) others) segs
          ∧ playerManager w' = playerManager w
          ∧ length (objects w') = length (objects w).
Proof.
  revert w. induction others as [|other rest IH]; intros w; simpl.
  - intros [= <-]. exists []. simpl. rewrite app_nil_r.
    repeat split; constructor.
  - rewrite filter_cons. case_bool_decide as Hne.
    + rewrite decide_True by done.
      destruct (emit prog fuel (ThePlayer other) OnPlayerJoinGame
                  [ArgLP (Some lp)] w) as [w1|] eqn:He; [|done].
      simpl. intros Hrest.
      destruct (emit_frame prog _ _ _ _ _ _ He) as (ls & Htr1 & Hpm1 & Hob1 & _).
      destruct (IH _ Hrest) as (segs & Htr & Hsegs & Hpm & Hob).
      exists (join_notice prog lp other ls :: segs). simpl.
      rewrite Htr, Htr1, <- app_assoc. simpl. split; [done|].
      split; [constructor; eauto|]. split; congruence.
    + rewrite decide_False by naive_solver. apply IH.
Qed.

Lemma notify_others_fuel_mono fuel fuel' others lp w w' :
  fuel ≤ fuel' →
  notify_others prog fuel others lp w = Some w' →
  notify_others prog fuel' others lp w = Some w'.
Proof.
  intros Hle. revert w. induction others as [|other rest IH]; intros w; simpl; [done|].
  case_bool_decide; [|apply IH].
  destruct (emit prog fuel (ThePlayer other) OnPlayerJoinGame [ArgLP (Some lp)] w)
    as [w1|] eqn:He; [|done].
  rewrite (emit_fuel_mono prog fuel fuel' _ _ _ _ _ Hle He). simpl. apply IH.
Qed.

Lemma notify_others_returns others lp w :
  quiet prog OnPlayerJoinGame →
  ∃ fuel w', notify_others prog fuel others lp w = Some w'.
Proof.
  intros Hq. revert w. induction others as [|other rest IH]; intros w; simpl.
  - by exists 0, w.
  - case_bool_decide; [|apply IH].
    destruct (emit_quiet_returns prog (ThePlayer other) OnPlayerJoinGame
                [ArgLP (Some lp)] w Hq) as (f1 & w1 & He).
    destruct (IH w1) as (f2 & w' & Hrest).
    exists (f1 `max` f2), w'.
    rewrite (emit_fuel_mono prog f1 (f1 `max` f2) _ _ _ _ _ (Nat.le_max_l _ _) He).
    simpl. by apply (notify_others_fuel_mono f2); [lia|].
Qed.

(** [addPlayer] for an id without entry. *)
Lemma addPlayer_fresh_spec fuel p w m r w' :
  playerManager w = Some m →
  Map_get (Mod.GetObjId p) m = None →
  addPlayer prog fuel p w = Done r w' →
  r = length (objects w)
  ∧ playerManager w' = Some (m ++ [(Mod.GetObjId p, r)])
  ∧ length (objects w') = S (length (objects w))
  ∧ ∃ segs, trace w' = trace w ++ ObsSet (Mod.GetObjId p) r :: concat segs
            ∧ Forall2 (λ other seg, ∃ ls, seg = join_notice prog r other ls)
                      (filter (λ other, other ≠ r) (m.*2 ++ [r])) segs.
Proof.
  intros Hm Hget. unfold addPlayer. rewrite Hm, Hget.
  destruct (createPlayer_spec p w) as (Hlp & Hob1 & Hpm1 & Htr1).
  destruct (createPlayer prog p w) as [lp w1]. simpl in *. subst lp.
  rewrite (Map_set_fresh _ _ _ Hget). unfold Map_values. rewrite fmap_app. simpl.
  destruct (notify_others prog fuel _ _ _) as [w3|] eqn:Hn; [|done].
  intros [= <- <-].
  destruct (notify_others_spec _ _ _ _ _ Hn) as (segs & Htr & Hsegs & Hpm & Hob).
  simpl in *. split; [done|]. split; [done|]. split; [congruence|].
  exists segs. rewrite Htr, Htr1, <- app_assoc. done.
Qed.

Lemma addPlayer_fuel_mono fuel fuel' p w r w' :
  fuel ≤ fuel' →
  addPlayer prog fuel p w = Done r w' →
  addPlayer prog fuel' p w = Done r w'.
Proof.
  intros Hle. unfold addPlayer. destruct (playerManager w) as [m|]; [|done].
  destruct (Map_get _ m); [done|]. destruct (createPlayer prog p w) as [lp w1].
  destruct (notify_others prog fuel _ _ _) as [w3|] eqn:Hn; [|done].
  by rewrite (notify_others_fuel_mono fuel fuel' _ _ _ _ Hle Hn).
Qed.

Lemma addPlayer_returns p w :
  quiet prog OnPlayerJoinGame → is_Some (playerManager w) →
  ∃ fuel r w', addPlayer prog fuel p w = Done r w'.
Proof.
  intros Hq [m Hm]. unfold addPlayer. rewrite Hm.
  destruct (Map_get _ m) as [r|]; [by exists 0, r, w|].
  destruct (createPlayer prog p w) as [lp w1].
  destruct (notify_others_returns
              (Map_values (Map_set (Mod.GetObjId p) lp m)) lp
              (log (ObsSet (Mod.GetObjId p) lp)
                 (set_playerManager (Some (Map_set (Mod.GetObjId p) lp m)) w1)) Hq)
    as (fuel & w3 & Hn).
  exists fuel, lp, w3. by rewrite Hn.
Qed.

End JoinFacts.

Lemma filter_others (m : PlayersMap) (B : nat) :
  Forall (λ e, e.2 < B) m →
  filter (λ other, other ≠ B) (m.*2 ++ [B]) = m.*2.
Proof.
  intros Hm. rewrite filter_app.
  rewrite (filter_cons_False (λ other, other ≠ B)) by naive_solver.
  rewrite filter_nil, app_nil_r.
  induction Hm as [|[k v] m Hv Hm IH]; [done|]. simpl in *.
  rewrite (filter_cons_True (λ other, other ≠ B)) by lia. f_equal. exact IH.
Qed.

Lemma join_notice_subject prog B A ls :
  Forall (λ o, obs_subject o = Some (ThePlayer A)) (join_notice prog B A ls).
Proof.
  unfold join_notice, invocations. constructor; [done|].
  apply Forall_fmap, Forall_forall. by intros l _.
Qed.

Lemma join_notices_not_self prog B (others : list nat) segs :
  Forall (λ A, A ≠ B) others →
  Forall2 (λ A seg, ∃ ls, seg = join_notice prog B A ls) others segs →
  Forall (λ o, obs_subject o ≠ Some (ThePlayer B)) (concat segs).
Proof.
  intros Hne H2. induction H2 as [|A seg others segs [ls ->] H2 IH]; cbn [concat].
  - constructor.
  - apply Forall_cons in Hne as [HA Hne]. apply Forall_app. split; [|auto].
    eapply Forall_impl; [apply join_notice_subject|].
    simpl. intros o -> [= ->]. done.
Qed.

Lemma ticking_reached :
  run_script [AddListener TheMode 1; AddListener TheMode 3; AddListener TheMode 2]
    new_GameMode = ticking.
Proof. reflexivity. Qed.

Lemma hall_reached : run Sample 0 [CallJoin alice] new_GameMode = Done tt hall.
Proof. reflexivity. Qed.

Lemma Sample_quiet ev : quiet Sample ev.
Proof.
  intros l body args Hc.
  destruct l as [|[|[|[|l]]]]; destruct ev; simpl in Hc; try discriminate Hc;
    injection Hc as <-; repeat constructor.
Qed.

Section JoinSequences.

Variable prog : Program.

Lemma addPlayer_keeps_manager fuel p w r w' :
  addPlayer prog fuel p w = Done r w' → is_Some (playerManager w').
Proof.
  destruct (playerManager w) as [m|] eqn:Hm; [|unfold addPlayer; by rewrite Hm].
  destruct (Map_get (Mod.GetObjId p) m) as [r0|] eqn:Hget.
  - rewrite (addPlayer_duplicate_lookup fuel p w m r0 Hm Hget).
    intros [= _ <-]. by rewrite Hm.
  - intros Hadd.
    destruct (addPlayer_fresh_spec prog _ _ _ _ _ _ Hm Hget Hadd) as (_ & -> & _).
    done.
Qed.

Lemma joins_fuel_mono fuel fuel' ps w rs w' :
  fuel ≤ fuel' →
  joins prog fuel ps w = Done rs w' →
  joins prog fuel' ps w = Done rs w'.
Proof.
  intros Hle. revert w rs w'.
  induction ps as [|p ps IH]; intros w rs w'; simpl; [done|].
  destruct (addPlayer prog fuel p w) as [r w1| |] eqn:Hadd; [|done..].
  rewrite (addPlayer_fuel_mono prog fuel fuel' _ _ _ _ Hle Hadd). simpl.
  destruct (joins prog fuel ps w1) as [rs1 w2| |] eqn:Hj; [|done..].
  by rewrite (IH _ _ _ Hj).
Qed.

Lemma joins_returns ps w :
  quiet prog OnPlayerJoinGame → is_Some (playerManager w) →
  ∃ fuel rs w', joins prog fuel ps w = Done rs w'.
Proof.
  intros Hq. revert w. induction ps as [|p ps IH]; intros w Hm; simpl.
  - by exists 0, [], w.
  - destruct (addPlayer_returns prog p w Hq Hm) as (f1 & r & w1 & Hadd).
    destruct (IH w1 (addPlayer_keeps_manager _ _ _ _ _ Hadd)) as (f2 & rs & w2 & Hj).
    exists (f1 `max` f2), (r :: rs), w2.
    rewrite (addPlayer_fuel_mono prog f1 (f1 `max` f2) _ _ _ _ (Nat.le_max_l _ _) Hadd).
    simpl. by rewrite (joins_fuel_mono f2 (f1 `max` f2) _ _ _ _ (Nat.le_max_r _ _) Hj).
Qed.

(** Joins of ids that have no entry: each call makes one new instance,
    appended to the map. *)
Lemma joins_spec fuel ps w m rs w' :
  playerManager w = Some m →
  Forall (λ p, Map_get (Mod.GetObjId p) m = None) ps →
  NoDup (Mod.GetObjId <$> ps) →
  joins prog fuel ps w = Done rs w' →
  rs = seq (length (objects w)) (length ps)
  ∧ playerManager w' = Some (m ++ zip (Mod.GetObjId <$> ps) rs).
Proof.
  revert w m rs w'.
  induction ps as [|p ps IH]; intros w m rs w' Hm Habs Hnd; simpl.
  - intros [= <- <-]. by rewrite app_nil_r.
  - apply Forall_cons in Habs as [Hp Habs].
    rewrite fmap_cons in Hnd. apply NoDup_cons in Hnd as [Hnotin Hnd].
    destruct (addPlayer prog fuel p w) as [r w1| |] eqn:Hadd; [|done..]. simpl.
    destruct (joins prog fuel ps w1) as [rs1 w2| |] eqn:Hj; [|done..]. simpl.
    intros [= <- <-].
    destruct (addPlayer_fresh_spec prog _ _ _ _ _ _ Hm Hp Hadd)
      as (-> & Hm1 & Hob1 & _).
    destruct (IH w1 _ rs1 w2 Hm1) as (-> & Hm2); [|done|done|].
    + rewrite Forall_forall in Habs. apply Forall_forall. intros p' Hp'.
      apply Map_get_None. rewrite fmap_app, elem_of_app. simpl.
      intros [Hin|Hin%list_elem_of_singleton].
      * revert Hin. apply Map_get_None. by apply Habs.
      * apply Hnotin. rewrite <- Hin. apply list_elem_of_fmap. eauto.
    + rewrite Hob1 in Hm2 |- *. split; [done|]. by rewrite Hm2, <- app_assoc.
Qed.

End JoinSequences.

Lemma Map_get_zip (ids : list Z) (rs : list nat) i id r :
  NoDup ids → length ids = length rs →
  ids !! i = Some id → rs !! i = Some r →
  Map_get id (zip ids rs) = Some r.
Proof.
  intros Hnd Hlen Hid Hr. apply Map_get_elem.
  - unfold Map_ok. rewrite fst_zip by lia. done.
  - apply list_elem_of_lookup. exists i.
    apply lookup_zip_with_Some. by exists id, r.
Qed.

(** ** Order of PlayerManager work and hook *)

Lemma hook_last pre h :
  Forall (λ o, is_hook o = false) pre → is_hook h = true →
  update_before_hook (pre ++ [h]).
Proof.
  intros Hpre Hh i j h' o Hi Hh' Hj Ho.
  assert (Hlen : i = length pre).
  { destruct (decide (i < length pre)) as [Hlt|Hge].
    - rewrite lookup_app_l in Hi by done. rewrite Forall_forall in Hpre.
      apply list_elem_of_lookup_2 in Hi. apply Hpre in Hi. congruence.
    - apply lookup_lt_Some in Hi. rewrite length_app in Hi. simpl in Hi. lia. }
  subst i. destruct (decide (j < length pre)) as [Hlt|Hge]; [done|].
  pose proof (lookup_lt_Some _ _ _ Hj) as Hjlt. rewrite length_app in Hjlt.
  simpl in Hjlt. assert (j = length pre) as -> by lia.
  rewrite lookup_app_r, Nat.sub_diag in Hj by done. injection Hj as <-.
  destruct h; simpl in *; congruence.
Qed.

Lemma update_before_hook_nil : update_before_hook [].
Proof. intros i j h o Hi. by rewrite lookup_nil in Hi. Qed.

Lemma invocations_no_hook prog s ev args ls :
  Forall (λ o, is_hook o = false) (invocations prog s ev args ls).
Proof. unfold invocations. apply Forall_fmap, Forall_forall. by intros l _. Qed.

Lemma join_notices_no_hook prog B (others : list nat) segs :
  Forall2 (λ A seg, ∃ ls, seg = join_notice prog B A ls) others segs →
  Forall (λ o, is_hook o = false) (concat segs).
Proof.
  intros H2. induction H2 as [|A seg others segs [ls ->] H2 IH]; cbn [concat].
  - constructor.
  - apply Forall_app. split; [|done]. unfold join_notice.
    constructor; [done|]. apply invocations_no_hook.
Qed.

(** What [addPlayer] adds to the trace holds no hook. *)
Lemma addPlayer_no_hook prog fuel p w r w' :
  addPlayer prog fuel p w = Done r w' →
  ∃ e, trace w' = trace w ++ e ∧ Forall (λ o, is_hook o = false) e.
Proof.
  destruct (playerManager w) as [m|] eqn:Hm; [|unfold addPlayer; by rewrite Hm].
  destruct (Map_get (Mod.GetObjId p) m) as [r0|] eqn:Hget.
  - rewrite (addPlayer_duplicate_lookup fuel p w m r0 Hm Hget).
    intros [= _ <-]. exists []. by rewrite app_nil_r.
  - intros Hadd.
    destruct (addPlayer_fresh_spec prog _ _ _ _ _ _ Hm Hget Hadd)
      as (_ & _ & _ & segs & Htr & Hsegs).
    eexists. split; [exact Htr|]. constructor; [done|].
    by eapply join_notices_no_hook.
Qed.

Lemma forward_order prog fuel ev r rest w w' :
  forward prog fuel ev r rest w = Done tt w' →
  update_before_hook (drop (length (trace w)) (trace w')).
Proof.
  intros Hrun. destruct (forward_spec prog _ _ _ _ _ _ Hrun) as (ls & -> & _).
  rewrite drop_app_length.
  apply (hook_last (_ :: _)); [|done]. constructor; [done|].
  apply invocations_no_hook.
Qed.

Lemma drop_trace_nil (w : State) : drop (length (trace w)) (trace w) = [].
Proof. by apply drop_all. Qed.

(** ** Invariants of the reachable states *)

Section Invariants.

Variable prog : Program.

Lemma registry_ok_frame w w' :
  playerManager w' = playerManager w →
  length (objects w) ≤ length (objects w') →
  registry_ok w → registry_ok w'.
Proof.
  unfold registry_ok. intros -> Hlen. destruct (playerManager w) as [m|]; [|done].
  intros [Hm Hrefs]. split; [done|].
  eapply Forall_impl; [exact Hrefs|]. intros [k v]. simpl. lia.
Qed.

Lemma store_ok_addListener s l w : store_ok w → store_ok (addListener s l w).
Proof.
  unfold store_ok, addListener. intros Hok.
  destruct (listeners_of s w) as [a|]; [|done].
  destruct (arrays w !! a); [|done]. simpl. by rewrite length_insert.
Qed.

Lemma store_ok_alloc ls w :
  store_ok w → store_ok (set_arrays (λ h, h ++ [ls]) w).
Proof.
  unfold store_ok. simpl. rewrite length_app. simpl. intros [Hgm Hobj].
  split; [lia|]. eapply Forall_impl; [exact Hobj|]. intros o. simpl. lia.
Qed.

Lemma store_ok_set_listeners s a w :
  a < length (arrays w) → store_ok w → store_ok (set_listeners s a w).
Proof.
  unfold store_ok. intros Ha [Hgm Hobj]. destruct s as [|r]; simpl; [done|].
  destruct (objects w !! r) as [o|]; [|done]. simpl. split; [done|].
  by apply Forall_insert.
Qed.

Lemma store_ok_removeListener s l w : store_ok w → store_ok (removeListener s l w).
Proof.
  unfold removeListener. intros Hok.
  destruct (current_listeners s w) as [ls|]; [|done]. simpl.
  apply store_ok_set_listeners; [|by apply store_ok_alloc].
  simpl. rewrite length_app. simpl. lia.
Qed.

Lemma store_ok_run_script cs w : store_ok w → store_ok (run_script cs w).
Proof.
  unfold run_script. revert w. induction cs as [|c cs IH]; intros w Hok; simpl; [done|].
  apply IH. destruct c; simpl; [by apply store_ok_addListener|].
  by apply store_ok_removeListener.
Qed.

Lemma store_ok_log o w : store_ok w → store_ok (log o w).
Proof. done. Qed.

Lemma store_ok_invoke s ev args l w :
  store_ok w → store_ok (invoke prog s ev args l w).
Proof.
  unfold invoke. intros Hok. destruct (callback prog l ev) as [body|]; [|done].
  by apply store_ok_run_script, store_ok_log.
Qed.

Lemma store_ok_emit_from fuel s ev args a i w w' :
  store_ok w → emit_from prog fuel s ev args a i w = Some w' → store_ok w'.
Proof.
  revert i w. induction fuel as [|fuel IH]; intros i w Hok; simpl.
  - destruct (arrays w !! a ≫= _); [done|]. by intros [= <-].
  - destruct (arrays w !! a ≫= _) as [l|]; [|by intros [= <-]].
    apply IH. by apply store_ok_invoke.
Qed.

Lemma store_ok_emit fuel s ev args w w' :
  store_ok w → emit prog fuel s ev args w = Some w' → store_ok w'.
Proof.
  unfold emit. intros Hok.
  destruct (listeners_of s (log (ObsEmit s ev args) w)) as [a|].
  - by apply store_ok_emit_from.
  - by intros [= <-].
Qed.

Lemma store_ok_run_hook ev args w : store_ok w → store_ok (run_hook prog ev args w).
Proof. intros Hok. by apply store_ok_run_script, store_ok_log. Qed.

Lemma store_ok_createPlayer p w :
  store_ok w → store_ok (createPlayer prog p w).2.
Proof.
  intros Hok. unfold createPlayer. simpl.
  generalize (ctor_listeners prog (length (objects w)) p). intros ls.
  set (w2 := set_objects _ _).
  assert (Hok2 : store_ok w2).
  { subst w2. destruct (store_ok_alloc [] w Hok) as [Hgm Hobj].
    split; [done|]. simpl in *. apply Forall_app. split; [done|].
    constructor; [|done]. simpl. rewrite length_app. simpl. lia. }
  revert Hok2. generalize w2. clear w2.
  induction ls as [|l ls IH]; intros w2 Hok2; simpl; [done|].
  by apply IH, store_ok_addListener.
Qed.

Lemma store_ok_notify_others fuel others r w w' :
  store_ok w → notify_others prog fuel others r w = Some w' → store_ok w'.
Proof.
  revert w. induction others as [|other rest IH]; intros w Hok; simpl.
  - by intros [= <-].
  - case_bool_decide; [|by apply IH].
    destruct (emit prog fuel (ThePlayer other) OnPlayerJoinGame [ArgLP (Some r)] w)
      as [w1|] eqn:He; [|done].
    simpl. apply IH. by eapply store_ok_emit.
Qed.

Lemma store_ok_addPlayer fuel p w r w' :
  store_ok w → addPlayer prog fuel p w = Done r w' → store_ok w'.
Proof.
  intros Hok. unfold addPlayer. destruct (playerManager w) as [m|]; [|done].
  destruct (Map_get _ m); [by intros [= _ <-]|].
  pose proof (store_ok_createPlayer p w Hok) as Hok1.
  destruct (createPlayer prog p w) as [r1 w1]. simpl in Hok1.
  destruct (notify_others prog fuel _ _ _) as [w3|] eqn:Hn; [|done].
  intros [= _ <-]. by eapply store_ok_notify_others; [|exact Hn].
Qed.

Lemma store_ok_removePlayer id w w' :
  store_ok w → removePlayer id w = Done tt w' → store_ok w'.
Proof.
  intros Hok. unfold removePlayer. destruct (playerManager w) as [m|]; [|done].
  intros [= <-]. apply store_ok_log.
  destruct (Map_get id m) as [r|]; [|done]. simpl.
  apply (store_ok_set_listeners (ThePlayer r) (length (arrays w))
           (set_arrays (λ h, h ++ [[]]) w)); [|by apply store_ok_alloc].
  simpl. rewrite length_app. simpl. lia.
Qed.

Lemma Map_ok_delete id m : Map_ok m → Map_ok (Map_delete id m).
Proof.
  unfold Map_ok, Map_delete. intros Hm.
  eapply sublist_NoDup; [exact Hm|apply fmap_sublist, sublist_filter].
Qed.

Lemma registry_ok_addPlayer fuel p w r w' :
  registry_ok w → addPlayer prog fuel p w = Done r w' → registry_ok w'.
Proof.
  intros Hok. destruct (playerManager w) as [m|] eqn:Hm;
    [|unfold addPlayer; by rewrite Hm].
  destruct (Map_get (Mod.GetObjId p) m) as [r0|] eqn:Hget.
  - rewrite (addPlayer_duplicate_lookup fuel p w m r0 Hm Hget). by intros [= _ <-].
  - intros Hadd.
    destruct (addPlayer_fresh_spec prog _ _ _ _ _ _ Hm Hget Hadd)
      as (-> & Hm' & Hob & _).
    unfold registry_ok in *. rewrite Hm'. rewrite Hm in Hok.
    destruct Hok as [Hmok Hrefs]. split.
    + rewrite <- (Map_set_fresh _ _ _ Hget). by apply Map_ok_set_fresh.
    + apply Forall_app. split.
      * eapply Forall_impl; [exact Hrefs|]. intros [k v]. simpl. lia.
      * constructor; [simpl; lia|done].
Qed.

Lemma registry_ok_removePlayer id w w' :
  registry_ok w → removePlayer id w = Done tt w' → registry_ok w'.
Proof.
  unfold registry_ok, removePlayer. destruct (playerManager w) as [m|]; [|done].
  intros [Hm Hrefs] [= <-]. simpl. split; [by apply Map_ok_delete|].
  assert (Hlen : ∀ w0, length (objects w0) = length (objects w) →
            Forall (λ e : Z * nat, e.2 < length (objects w0)) (Map_delete id m)).
  { intros w0 ->. rewrite Forall_forall in Hrefs. apply Forall_forall.
    intros e [_ He]%list_elem_of_filter. by apply Hrefs. }
  apply Hlen. destruct (Map_get id m) as [r|]; [|done].
  destruct (set_listeners_fields (ThePlayer r) (length (arrays w))
              (set_arrays (λ h, h ++ [[]]) w)) as (_ & _ & _ & Hob).
  exact Hob.
Qed.

Lemma registry_ok_run_hook ev args w :
  registry_ok w → registry_ok (run_hook prog ev args w).
Proof.
  destruct (run_hook_fields prog ev args w) as (_ & Hpm & Hob).
  apply registry_ok_frame; [done|lia].
Qed.

Lemma forward_invariant fuel ev r rest w w' :
  store_ok w ∧ registry_ok w →
  forward prog fuel ev r rest w = Done tt w' →
  store_ok w' ∧ registry_ok w'.
Proof.
  intros [Hs Hr] Hrun. split.
  - revert Hrun. unfold forward, PlayerManager_On.
    destruct (playerManager w); [|done].
    destruct (emit prog fuel (ThePlayer r) ev rest w) as [w1|] eqn:He; [|done].
    simpl. intros [= <-]. apply store_ok_run_hook. by eapply store_ok_emit.
  - destruct (forward_spec prog _ _ _ _ _ _ Hrun) as (ls & _ & Hpm & Hob & _).
    revert Hr. apply registry_ok_frame; [done|lia].
Qed.

(** Every entry point of the router keeps the store and the registry
    well formed. *)
Lemma internal_invariant fuel c w w' :
  store_ok w ∧ registry_ok w →
  _internal prog fuel c w = Done tt w' →
  store_ok w' ∧ registry_ok w'.
Proof.
  intros [Hs Hr]. destruct c as [k extra| |p|k p extra|k p q extra|p|n]; simpl.
  - intros [= <-]. split; [by apply store_ok_run_hook|by apply registry_ok_run_hook].
  - destruct (emit prog fuel TheMode OngoingGlobal [] w) as [w1|] eqn:He; [|done].
    simpl. intros [= <-].
    destruct (emit_frame prog _ _ _ _ _ _ He) as (_ & _ & Hpm & Hob & _).
    split; [apply store_ok_run_hook; by eapply store_ok_emit|].
    apply registry_ok_run_hook. revert Hr. apply registry_ok_frame; [done|lia].
  - destruct (playerManager w) as [m|] eqn:Hm; [|by intros [= <-]].
    unfold lp, get. rewrite Hm. simpl.
    destruct (resolve p m) as [r|] eqn:Hres; [|by intros [= <-]].
    unfold tick, get. rewrite Hm, Hres. simpl. intros Hrun.
    apply (forward_invariant fuel OngoingPlayer r [] w w'); [done|].
    unfold forward, PlayerManager_On. by rewrite Hm.
  - unfold lp, get. destruct (playerManager w) as [m|] eqn:Hm; [|done]. simpl.
    destruct (resolve p m) as [r|]; [|by intros [= <-]].
    by apply forward_invariant.
  - unfold lp, get. destruct (playerManager w) as [m|] eqn:Hm; [|done]. simpl.
    destruct (resolve p m) as [r|]; [|by intros [= <-]].
    rewrite Hm. simpl. by apply forward_invariant.
  - set (w0 := match playerManager w with Some _ => w | None => _ end).
    assert (H0 : store_ok w0 ∧ registry_ok w0).
    { subst w0. destruct (playerManager w) eqn:Hm; [done|]. split; [done|].
      unfold registry_ok. simpl. split; [apply NoDup_nil_2|constructor]. }
    destruct H0 as [Hs0 Hr0].
    destruct (addPlayer prog fuel p w0) as [r w1| |] eqn:Hadd; [|done..].
    simpl. intros [= <-]. split.
    + apply store_ok_run_hook. by eapply store_ok_addPlayer.
    + apply registry_ok_run_hook. by eapply registry_ok_addPlayer.
  - unfold lpId, getById. destruct (playerManager w) as [m|] eqn:Hm; [|done]. simpl.
    set (w0 := match Map_get n m with Some _ => _ | None => w end).
    assert (H0 : store_ok w0 ∧ registry_ok w0).
    { subst w0. destruct (Map_get n m); [|done].
      split; [by apply store_ok_run_hook|by apply registry_ok_run_hook]. }
    destruct H0 as [Hs0 Hr0]. intros Hrun. split.
    + by eapply store_ok_removePlayer.
    + by eapply registry_ok_removePlayer.
Qed.

(** Every state the host can drive a new mode into is well formed. *)
Lemma reachable_invariant fuel cs w' :
  run prog fuel cs new_GameMode = Done tt w' →
  store_ok w' ∧ registry_ok w'.
Proof.
  assert (Hgen : ∀ w, store_ok w ∧ registry_ok w →
            run prog fuel cs w = Done tt w' → store_ok w' ∧ registry_ok w').
  { induction cs as [|c cs IH]; intros w Hok; simpl.
    - by intros [= <-].
    - destruct (_internal prog fuel c w) as [[] w1| |] eqn:Hc; [|done..].
      simpl. apply IH. by eapply internal_invariant. }
  apply Hgen. split; [|done]. split; [simpl; lia|constructor].
Qed.

(** In a well-formed state every registered player, and the mode, has a
    list of subscribers. *)
Lemma current_listeners_defined w :
  store_ok w →
  is_Some (current_listeners TheMode w)
  ∧ ∀ r, r < length (objects w) → is_Some (current_listeners (ThePlayer r) w).
Proof.
  intros [Hgm Hobj]. unfold current_listeners. split.
  - simpl. by apply lookup_lt_is_Some.
  - intros r Hr. simpl. destruct (lookup_lt_is_Some_2 _ _ Hr) as [o Ho].
    rewrite Ho. simpl. apply lookup_lt_is_Some.
    rewrite Forall_forall in Hobj. apply Hobj. by eapply list_elem_of_lookup_2.
Qed.

End Invariants.

(** ** Inert callbacks *)

Section Inert.

Variable prog : Program.

Lemma add_trace_nil w : add_trace [] w = w.
Proof. destruct w. unfold add_trace. simpl. by rewrite app_nil_r. Qed.

Lemma add_trace_app tr1 tr2 w :
  add_trace tr2 (add_trace tr1 w) = add_trace (tr1 ++ tr2) w.
Proof. unfold add_trace. simpl. by rewrite app_assoc. Qed.

Lemma invoke_inert s ev args l w :
  inert prog ev →
  invoke prog s ev args l w
  = add_trace (if decide (implements prog ev l)
               then [ObsInvoke s l ev args] else []) w.
Proof.
  intros Hin. unfold invoke.
  destruct (decide (implements prog ev l)) as [[body Hc]|Hn].
  - rewrite Hc, (Hin _ _ args Hc). done.
  - destruct (callback prog l ev) as [body|] eqn:Hc.
    + exfalso. apply Hn. by exists body.
    + by rewrite add_trace_nil.
Qed.

Lemma emit_from_inert fuel s ev args a i w ls :
  inert prog ev →
  arrays w !! a = Some ls →
  length ls ≤ i + fuel →
  emit_from prog fuel s ev args a i w
  = Some (add_trace (invocations prog s ev args (drop i ls)) w).
Proof.
  intros Hin. revert i w. induction fuel as [|fuel IH]; intros i w Ha Hlen; simpl;
    rewrite Ha; simpl.
  - rewrite lookup_ge_None_2 by lia. rewrite drop_ge by lia.
    by rewrite add_trace_nil.
  - destruct (ls !! i) as [l|] eqn:Hi.
    + rewrite invoke_inert by done.
      rewrite (IH (S i)); [|done|lia].
      rewrite add_trace_app, (drop_S _ _ _ Hi), invocations_cons. done.
    + rewrite drop_ge by by apply lookup_ge_None. by rewrite add_trace_nil.
Qed.

Lemma emit_inert fuel s ev args w ls :
  inert prog ev →
  current_listeners s w = Some ls →
  length ls ≤ fuel →
  emit prog fuel s ev args w
  = Some (add_trace (ObsEmit s ev args :: invocations prog s ev args ls) w).
Proof.
  intros Hin Hcur Hlen. unfold current_listeners in Hcur. unfold emit.
  change (listeners_of s (log (ObsEmit s ev args) w)) with (listeners_of s w).
  destruct (listeners_of s w) as [a|]; [|done]. simpl in Hcur.
  rewrite (emit_from_inert fuel s ev args a 0 _ ls Hin); [|done|lia].
  rewrite drop_0. unfold add_trace. simpl. by rewrite <- app_assoc.
Qed.

Lemma notify_others_inert fuel others r w :
  inert prog OnPlayerJoinGame →
  Forall (λ A, ∃ ls, current_listeners (ThePlayer A) w = Some ls ∧ length ls ≤ fuel)
         others →
  notify_others prog fuel others r w
  = Some (add_trace
            (concat ((λ A, join_notice prog r A (subscribers A w))
                       <$> filter (λ A, A ≠ r) others)) w).
Proof.
  intros Hin Hall. revert w Hall.
  induction others as [|A rest IH]; intros w Hall; simpl.
  - by rewrite add_trace_nil.
  - apply Forall_cons in Hall as [(ls & Hcur & Hlen) Hall].
    rewrite filter_cons. case_bool_decide as HA.
    + rewrite decide_True by done.
      rewrite (emit_inert fuel _ _ _ w ls Hin Hcur Hlen). simpl.
      rewrite IH by done. rewrite add_trace_app.
      assert (Hsub : subscribers A w = ls) by (unfold subscribers; by rewrite Hcur).
      rewrite Hsub. reflexivity.
    + rewrite decide_False by naive_solver. by apply IH.
Qed.

(** [addListener] touches one array only. *)
Lemma addListener_other_arrays s l w a :
  listeners_of s w ≠ Some a →
  arrays (addListener s l w) !! a = arrays w !! a.
Proof.
  unfold addListener. intros Hne. destruct (listeners_of s w) as [a'|]; [|done].
  destruct (arrays w !! a'); [|done]. simpl.
  apply list_lookup_insert_ne. congruence.
Qed.

(** Constructing a player leaves the subscribers of the others alone. *)
Lemma createPlayer_subscribers p w A :
  store_ok w → A < length (objects w) →
  current_listeners (ThePlayer A) (createPlayer prog p w).2
  = current_listeners (ThePlayer A) w.
Proof.
  intros [Hgm Hobj] HA. unfold createPlayer. simpl.
  generalize (ctor_listeners prog (length (objects w)) p). intros ls.
  set (n := length (arrays w)). set (B := length (objects w)).
  set (w2 := set_objects _ _).
  assert (H2 : objects w2 = objects w ++ [mkAPlayer p n]
               ∧ ∀ a, a < n → arrays w2 !! a = arrays w !! a).
  { subst w2. simpl. split; [done|]. intros a Ha. by apply lookup_app_l. }
  assert (Hfold : ∀ w3, (objects w3 = objects w ++ [mkAPlayer p n]
                         ∧ ∀ a, a < n → arrays w3 !! a = arrays w !! a) →
            let w4 := foldl (λ w l, addListener (ThePlayer B) l w) w3 ls in
            objects w4 = objects w ++ [mkAPlayer p n]
            ∧ ∀ a, a < n → arrays w4 !! a = arrays w !! a).
  { induction ls as [|l ls IH]; intros w3 H3; simpl; [done|].
    apply IH. destruct H3 as [Ho Ha].
    destruct (addListener_fields (ThePlayer B) l w3) as (_ & _ & -> & _).
    split; [done|]. intros a Hlt. rewrite addListener_other_arrays; [by apply Ha|].
    simpl. rewrite Ho. unfold B. rewrite lookup_app_r, Nat.sub_diag by done.
    simpl. intros [= ->]. lia. }
  destruct (Hfold w2 H2) as [Ho Ha]. unfold current_listeners. simpl.
  rewrite Ho, lookup_app_l by done.
  destruct (objects w !! A) as [o|] eqn:HoA; [|done]. simpl.
  apply Ha. rewrite Forall_forall in Hobj. apply Hobj.
  by eapply list_elem_of_lookup_2.
Qed.

Lemma lookup_length_concat (h : list (list nat)) a ls :
  h !! a = Some ls → length ls ≤ length (concat h).
Proof.
  revert a. induction h as [|x h IH]; intros a; [done|].
  simpl. rewrite length_app. destruct a as [|a]; simpl.
  - intros [= ->]. lia.
  - intros Ha. specialize (IH _ Ha). lia.
Qed.

(** [addPlayer] for an absent id when the join callbacks are inert:
    the call returns, and each player registered before is told once,
    through each of its subscribers that has the capability. *)
Lemma addPlayer_inert p w m :
  inert prog OnPlayerJoinGame →
  store_ok w → registry_ok w →
  playerManager w = Some m →
  Map_get (Mod.GetObjId p) m = None →
  ∃ fuel w',
    addPlayer prog fuel p w = Done (length (objects w)) w'
    ∧ trace w' = trace w ++ ObsSet (Mod.GetObjId p) (length (objects w))
                   :: concat ((λ A, join_notice prog (length (objects w)) A
                                      (subscribers A w)) <$> m.*2).
Proof.
  intros Hin Hs Hr Hm Hget. unfold registry_ok in Hr. rewrite Hm in Hr.
  destruct Hr as [_ Hrefs].
  pose proof (store_ok_createPlayer prog p w Hs) as Hs1.
  pose proof (createPlayer_subscribers p w) as Hsub.
  destruct (createPlayer_spec prog p w) as (Hlp & Hob1 & Hpm1 & Htr1).
  unfold addPlayer. rewrite Hm, Hget.
  destruct (createPlayer prog p w) as [B w1]. simpl in *. subst B.
  set (B := length (objects w)).
  rewrite (Map_set_fresh _ _ _ Hget). unfold Map_values. rewrite fmap_app. simpl.
  exists (length (concat (arrays w1))). eexists.
  rewrite (notify_others_inert _ _ _ _ Hin).
  - split; [reflexivity|]. simpl. rewrite filter_others by done.
    rewrite Htr1, <- app_assoc. simpl. do 3 f_equal.
    apply list_fmap_ext. intros i A HA. unfold subscribers.
    change (current_listeners (ThePlayer A) (log ?o (set_playerManager ?x w1)))
      with (current_listeners (ThePlayer A) w1).
    rewrite Hsub; [done|done|].
    apply list_lookup_fmap_Some in HA as ([k v] & -> & HA).
    rewrite Forall_forall in Hrefs.
    by apply (Hrefs (k, v)), list_elem_of_lookup_2 with i.
  - apply Forall_forall. intros A HA.
    change (current_listeners (ThePlayer A) (log ?o (set_playerManager ?x w1)))
      with (current_listeners (ThePlayer A) w1).
    assert (HAlt : A < length (objects w1)).
    { rewrite Hob1. apply elem_of_app in HA as [HA|HA%list_elem_of_singleton]; [|lia].
      apply list_elem_of_fmap in HA as ([k v] & -> & HA).
      rewrite Forall_forall in Hrefs. specialize (Hrefs _ HA). simpl in *.
      unfold B. lia. }
    destruct (current_listeners_defined w1 Hs1) as [_ Hdef].
    destruct (Hdef A HAlt) as [ls Hls]. exists ls. split; [done|].
    unfold current_listeners in Hls. simpl in Hls.
    destruct (objects w1 !! A) as [o|]; [|done]. simpl in Hls.
    by eapply lookup_length_concat.
Qed.

End Inert.

(** ** The router returns *)

(** On a mode with a PlayerManager, and for a program whose callbacks
    never subscribe, every entry point returns normally. *)
Lemma internal_returns prog c w :
  (∀ ev, quiet prog ev) → is_Some (playerManager w) →
  ∃ fuel w', _internal prog fuel c w = Done tt w'.
Proof.
  intros Hq [m Hm]. destruct c as [k extra| |p|k p extra|k p q extra|p|n]; simpl.
  - by exists 0, (run_hook prog (EvWorld k) (ArgHost <$> extra) w).
  - destruct (emit_quiet_returns prog TheMode OngoingGlobal [] w (Hq _))
      as (fuel & w1 & He).
    exists fuel. rewrite He. simpl. eauto.
  - rewrite Hm. unfold lp, get. rewrite Hm. simpl.
    destruct (resolve p m) as [r|] eqn:Hres; [|by exists 0, w].
    destruct (forward_returns prog OngoingPlayer r [] w (Hq _)) as (fuel & w' & Hrun);
      [by rewrite Hm|].
    exists fuel, w'. unfold tick, get. rewrite Hm, Hres. simpl.
    revert Hrun. unfold forward, PlayerManager_On. by rewrite Hm.
  - unfold lp, get. rewrite Hm. simpl.
    destruct (resolve p m) as [r|]; [|by exists 0, w].
    apply forward_returns; [done|by rewrite Hm].
  - unfold lp, get. rewrite Hm. simpl.
    destruct (resolve p m) as [r|]; [|by exists 0, w].
    rewrite Hm. simpl. apply forward_returns; [done|by rewrite Hm].
  - rewrite Hm.
    destruct (addPlayer_returns prog p w (Hq _)) as (fuel & r & w1 & Hadd);
      [by rewrite Hm|].
    exists fuel. rewrite Hadd. simpl. eauto.
  - unfold lpId, getById. rewrite Hm. simpl.
    set (w0 := match Map_get n m with Some _ => _ | None => w end).
    assert (Hm0 : playerManager w0 = Some m).
    { subst w0. destruct (Map_get n m) as [r|]; [|done].
      by destruct (run_hook_fields prog OnPlayerLeaveGame [ArgLP (Some r)] w)
        as (_ & -> & _). }
    destruct (removePlayer_spec n w0 m Hm0) as (w' & Hrun & _).
    by exists 0, w'.
Qed.

(** * The claims *)

(** C1. [addPlayer] for a handle [p] whose id has no entry, on a state
    whose registry is [m]: the instance returned is a new one ([B]); the
    first observation is the insertion of [B] into the [players] map;
    after it come, one for each instance [A] already registered and in
    the order of the registry, one [A.emit('OnPlayerJoinGame', B)] and
    the callbacks entered through [A], all with [B] as the argument;
    nothing is emitted through [B] itself.  When no [OnPlayerJoinGame]
    callback subscribes anything the call returns.  When these callbacks
    leave the bus alone, the callbacks entered through [A] are exactly
    those of the subscribers [A] had before the call, once each. *)
Theorem join_broadcast prog fuel p w m :
  registry_ok w →
  playerManager w = Some m →
  Map_get (Mod.GetObjId p) m = None →
  let B := length (objects w) in
  (∀ r w', addPlayer prog fuel p w = Done r w' →
     r = B
     ∧ playerManager w' = Some (m ++ [(Mod.GetObjId p, B)])
     ∧ ∃ segs,
         trace w' = trace w ++ ObsSet (Mod.GetObjId p) B :: concat segs
         ∧ Forall2 (λ A seg, ∃ ls, seg = join_notice prog B A ls) m.*2 segs
         ∧ Forall (λ o, obs_subject o ≠ Some (ThePlayer B)) (concat segs))
  ∧ (quiet prog OnPlayerJoinGame →
     ∃ fuel' r w', addPlayer prog fuel' p w = Done r w')
  ∧ (inert prog OnPlayerJoinGame → store_ok w →
     ∃ fuel' w',
       addPlayer prog fuel' p w = Done B w'
       ∧ trace w' = trace w ++ ObsSet (Mod.GetObjId p) B
                      :: concat ((λ A, join_notice prog B A (subscribers A w))
                                   <$> m.*2)).
Proof.
  intros Hok Hm Hget B. pose proof Hok as Hok'.
  unfold registry_ok in Hok'. rewrite Hm in Hok'.
  destruct Hok' as [_ Hrefs]. split; [|split].
  - intros r w' Hadd.
    destruct (addPlayer_fresh_spec prog _ _ _ _ _ _ Hm Hget Hadd)
      as (-> & Hpm & _ & segs & Htr & Hsegs).
    rewrite filter_others in Hsegs by done.
    split; [done|]. split; [done|]. exists segs. split; [done|]. split; [done|].
    eapply join_notices_not_self; [|done].
    apply Forall_fmap. eapply Forall_impl; [exact Hrefs|].
    intros [k v] Hv. simpl in *. unfold B. lia.
  - intros Hq. apply addPlayer_returns; [done|]. by rewrite Hm.
  - intros Hin Hs. by apply addPlayer_inert.
Qed.

Lemma join_broadcast_witness :
  ∃ fuel' w',
    addPlayer Sample fuel' bob hall = Done 1 w'
    ∧ trace w' = trace hall ++
        [ObsSet 9 1;
         ObsEmit (ThePlayer 0) OnPlayerJoinGame [ArgLP (Some 1)];
         ObsInvoke (ThePlayer 0) 4 OnPlayerJoinGame [ArgLP (Some 1)]].
Proof.
  destruct (join_broadcast Sample 0 bob hall [(7%Z, 0)]) as (_ & _ & Hinert).
  - by apply (bool_decide_unpack _).
  - reflexivity.
  - reflexivity.
  - apply Hinert.
    + intros l body args Hc.
      destruct l as [|[|[|[|l]]]]; simpl in Hc; try discriminate Hc.
      by injection Hc as <-.
    + by apply (bool_decide_unpack _).
Defined.

(** The scenario of the specification: join(7) then join(9); the bus of
    the first player receives the notice about the second, the bus of
    the second receives nothing. *)
Example second_join_notifies_first :
  addPlayer Sample 1 bob hall
  = Done 1 (mkState [[]; [4]; [5]] [mkAPlayer alice 1; mkAPlayer bob 2]
              (Some [(7%Z, 0); (9%Z, 1)]) 0
              (trace hall ++
               [ObsSet 9 1;
                ObsEmit (ThePlayer 0) OnPlayerJoinGame [ArgLP (Some 1)];
                ObsInvoke (ThePlayer 0) 4 OnPlayerJoinGame [ArgLP (Some 1)]])).
Proof. reflexivity. Qed.

(** C2. Before the first join the mode has no PlayerManager.  In that
    state every single-player entry point of the shape of
    [OnPlayerDeployed] throws (a [TypeError] on [this.playerManager.get]),
    whatever the handle, whereas [OngoingPlayer], which tests the field
    first, returns. *)
Theorem single_player_event_throws_before_first_join prog fuel k p extra :
  _internal prog fuel (CallPlayer k p extra) new_GameMode = TypeError new_GameMode
  ∧ _internal prog fuel (CallOngoingPlayer p) new_GameMode = Done tt new_GameMode.
Proof. split; reflexivity. Qed.

(** Once a PlayerManager exists, a single-player event whose handle does
    not resolve is dropped: the call returns and the state is the same. *)
Lemma single_player_event_dropped prog fuel k p extra w m :
  playerManager w = Some m →
  resolve p m = None →
  _internal prog fuel (CallPlayer k p extra) w = Done tt w
  ∧ _internal prog fuel (CallOngoingPlayer p) w = Done tt w.
Proof.
  intros Hm Hp. unfold _internal, lp, get. by rewrite Hm, Hp.
Qed.

(** C3. From a PlayerManager with an empty map, after joins for handles
    with pairwise distinct ids: the map holds, in order, exactly one entry
    per id joined, each with an instance of its own; [getById] of an id
    joined returns the instance that its join returned; and a further
    [addPlayer] for such an id returns that same instance and leaves the
    state as it is.  When no [OnPlayerJoinGame] callback subscribes
    anything, the joins return. *)
Theorem registry_unique_after_joins prog fuel ps w :
  playerManager w = Some [] →
  NoDup (Mod.GetObjId <$> ps) →
  (∀ rs w', joins prog fuel ps w = Done rs w' →
     playerManager w' = Some (zip (Mod.GetObjId <$> ps) rs)
     ∧ length rs = length ps
     ∧ NoDup rs
     ∧ ∀ i p r, ps !! i = Some p → rs !! i = Some r →
         getById (Mod.GetObjId p) w' = Done (Some r) w'
         ∧ ∀ fuel' p', Mod.GetObjId p' = Mod.GetObjId p →
             addPlayer prog fuel' p' w' = Done r w')
  ∧ (quiet prog OnPlayerJoinGame →
     ∃ fuel' rs w', joins prog fuel' ps w = Done rs w').
Proof.
  intros Hm Hnd. split.
  - intros rs w' Hj.
    destruct (joins_spec prog fuel ps w [] rs w' Hm) as (Hrs & Hm'); [|done..|].
    { apply Forall_forall. by intros p _. }
    simpl in Hm'.
    assert (Hlen : length rs = length ps) by (by rewrite Hrs, length_seq).
    split; [done|]. split; [done|]. split; [rewrite Hrs; apply NoDup_seq|].
    intros i p r Hp Hr.
    assert (Hget : Map_get (Mod.GetObjId p) (zip (Mod.GetObjId <$> ps) rs) = Some r).
    { apply (Map_get_zip _ _ i); [done|by rewrite length_fmap| |done].
      by rewrite list_lookup_fmap, Hp. }
    split.
    + unfold getById. by rewrite Hm', Hget.
    + intros fuel' p' Hid. unfold addPlayer. by rewrite Hm', Hid, Hget.
  - intros Hq. apply joins_returns; [done|]. by rewrite Hm.
Qed.

Lemma registry_unique_after_joins_witness :
  ∃ fuel' rs w',
    joins Sample fuel' [alice; bob] (createPlayerManager new_GameMode) = Done rs w'.
Proof.
  destruct (registry_unique_after_joins Sample 0 [alice; bob]
              (createPlayerManager new_GameMode) eq_refl) as [_ Hret].
  - by apply (bool_decide_unpack _).
  - apply Hret, Sample_quiet.
Defined.

Example two_joins :
  joins Sample 1 [alice; bob] (createPlayerManager new_GameMode)
  = Done [0; 1]
      (mkState [[]; [4]; [5]] [mkAPlayer alice 1; mkAPlayer bob 2]
         (Some [(7%Z, 0); (9%Z, 1)]) 0
         [ObsSet 7 0; ObsSet 9 1;
          ObsEmit (ThePlayer 0) OnPlayerJoinGame [ArgLP (Some 1)];
          ObsInvoke (ThePlayer 0) 4 OnPlayerJoinGame [ArgLP (Some 1)]]).
Proof. reflexivity. Qed.

(** C4, as the code has it.  For every entry point of the router other
    than [OnPlayerLeaveGame], in every state and for every program: if
    the call returns, all the PlayerManager work it did (insertion into
    the registry, [emit] through logical players and the callbacks
    entered there) is observed before its protected hook is entered.
    The call does return when the mode has a PlayerManager and no
    callback subscribes anything. *)
Theorem updates_precede_hook_except_leave prog fuel c w :
  (∀ n, c ≠ CallLeave n) →
  updates_precede_hook prog fuel c w
  ∧ ((∀ ev, quiet prog ev) → is_Some (playerManager w) →
     ∃ fuel' w', _internal prog fuel' c w = Done tt w').
Proof.
  intros Hc. split; [|by apply internal_returns].
  intros w'. destruct c as [k extra| |p|k p extra|k p q extra|p|n].
  - simpl. intros [= <-].
    destruct (run_hook_fields prog (EvWorld k) (ArgHost <$> extra) w) as (-> & _).
    rewrite drop_app_length. by apply (hook_last []).
  - simpl. destruct (emit prog fuel TheMode OngoingGlobal [] w) as [w1|] eqn:He; [|done].
    simpl. intros [= <-].
    destruct (emit_frame prog _ _ _ _ _ _ He) as (ls & Htr & _).
    destruct (run_hook_fields prog OngoingGlobal [] w1) as (-> & _).
    rewrite Htr, <- app_assoc, drop_app_length.
    apply (hook_last (_ :: _)); [|done]. constructor; [done|].
    apply invocations_no_hook.
  - simpl. destruct (playerManager w) as [m|] eqn:Hm.
    + unfold lp, get. rewrite Hm. simpl.
      destruct (resolve p m) as [r|] eqn:Hr.
      * unfold tick, get. rewrite Hm, Hr. simpl.
        change (bind (lift (emit prog fuel (ThePlayer r) OngoingPlayer [] w))
                  (λ _ w0, Done tt (run_hook prog OngoingPlayer [ArgLP (Some r)] w0))
                = Done tt w' → update_before_hook (drop (length (trace w)) (trace w'))).
        intros Hrun. apply (forward_order prog fuel OngoingPlayer r [] w w').
        unfold forward, PlayerManager_On. by rewrite Hm.
      * intros [= <-]. rewrite drop_trace_nil. apply update_before_hook_nil.
    + intros [= <-]. rewrite drop_trace_nil. apply update_before_hook_nil.
  - simpl. unfold lp, get. destruct (playerManager w) as [m|] eqn:Hm; [|done]. simpl.
    destruct (resolve p m) as [r|].
    + apply forward_order.
    + intros [= <-]. rewrite drop_trace_nil. apply update_before_hook_nil.
  - simpl. unfold lp, get. destruct (playerManager w) as [m|] eqn:Hm; [|done]. simpl.
    destruct (resolve p m) as [r|].
    + rewrite Hm. simpl. apply forward_order.
    + intros [= <-]. rewrite drop_trace_nil. apply update_before_hook_nil.
  - simpl.
    set (w0 := match playerManager w with Some _ => w | None => _ end).
    assert (Htr0 : trace w0 = trace w) by (subst w0; by destruct (playerManager w)).
    destruct (addPlayer prog fuel p w0) as [r w1| |] eqn:Hadd; [|done..].
    simpl. intros [= <-].
    destruct (addPlayer_no_hook prog _ _ _ _ _ Hadd) as (e & Htr & He).
    destruct (run_hook_fields prog OnPlayerJoinGame [ArgLP (Some r)] w1) as (-> & _).
    rewrite Htr, Htr0, <- app_assoc, drop_app_length. by apply hook_last.
  - by destruct (Hc n).
Qed.

Lemma updates_precede_hook_except_leave_witness :
  update_before_hook
    [ObsSet 9 1;
     ObsEmit (ThePlayer 0) OnPlayerJoinGame [ArgLP (Some 1)];
     ObsInvoke (ThePlayer 0) 4 OnPlayerJoinGame [ArgLP (Some 1)];
     ObsHook OnPlayerJoinGame [ArgLP (Some 1)]].
Proof.
  refine (proj1 (updates_precede_hook_except_leave Sample 1 (CallJoin bob) hall _)
            _ eq_refl).
  intros n. discriminate.
Defined.

(** In that run the registry is updated and the first player is told
    before the hook is entered. *)
Example join_then_hook :
  _internal Sample 1 (CallJoin bob) hall
  = Done tt (mkState [[]; [4]; [5]] [mkAPlayer alice 1; mkAPlayer bob 2]
               (Some [(7%Z, 0); (9%Z, 1)]) 0
               (trace hall ++
                [ObsSet 9 1;
                 ObsEmit (ThePlayer 0) OnPlayerJoinGame [ArgLP (Some 1)];
                 ObsInvoke (ThePlayer 0) 4 OnPlayerJoinGame [ArgLP (Some 1)];
                 ObsHook OnPlayerJoinGame [ArgLP (Some 1)]])).
Proof. reflexivity. Qed.

(** C4, as stated, fails at [OnPlayerLeaveGame]: there the hook is
    entered first and the PlayerManager is updated afterwards. *)
Lemma updates_precede_hook_fails_at_leave :
  ¬ updates_precede_hook Example 0 (CallLeave 7) lobby.
Proof.
  intros H. pose proof (H _ eq_refl) as H1.
  specialize (H1 0 1 (ObsHook OnPlayerLeaveGame [ArgLP (Some 0)]) (ObsDetach 0)
                eq_refl eq_refl eq_refl eq_refl).
  lia.
Qed.



(** The scenario of the specification: [alice] is damaged by a player
    that never joined. *)
Example damaged_by_unknown :
  _internal Example 1 (CallPair OnPlayerDied alice carol [3; 4]%Z) lobby
  = Done tt (mkState (arrays lobby) (objects lobby) (playerManager lobby) 0
       (trace lobby ++
        [ObsEmit (ThePlayer 0) (EvPair OnPlayerDied) [ArgLP None; ArgHost 3; ArgHost 4];
         ObsInvoke (ThePlayer 0) 1 (EvPair OnPlayerDied) [ArgLP None; ArgHost 3; ArgHost 4];
         ObsHook (EvPair OnPlayerDied) [ArgLP (Some 0); ArgLP None; ArgHost 3; ArgHost 4]])).
Proof. reflexivity. Qed.

(** C6. A leave for [n] on a mode with a PlayerManager returns
    normally.  If [n] resolves to [r], the hook [OnPlayerLeaveGame] is
    entered with [r], and only then [removePlayer(n)] runs (detach, then
    delete); if it does not resolve only the delete is observed.  Either
    way, [getById(n)] is absent afterwards. *)
Theorem leave_hook_then_remove prog fuel n w m :
  playerManager w = Some m →
  ∃ w',
    _internal prog fuel (CallLeave n) w = Done tt w'
    ∧ getById n w' = Done None w'
    ∧ trace w' = trace w ++
        match Map_get n m with
        | Some r => [ObsHook OnPlayerLeaveGame [ArgLP (Some r)];
                     ObsDetach r; ObsDelete n]
        | None => [ObsDelete n]
        end.
Proof.
  intros Hm. unfold _internal, lpId, getById. rewrite Hm. simpl.
  set (w0 := match Map_get n m with Some r => _ | None => w end).
  assert (Hm0 : playerManager w0 = Some m).
  { subst w0. destruct (Map_get n m) as [r|]; [|done].
    by destruct (run_hook_fields prog OnPlayerLeaveGame [ArgLP (Some r)] w)
      as (_ & -> & _). }
  destruct (removePlayer_spec n w0 m Hm0)
    as (w' & Hrun & Hpm & Hget & _ & Hdet & Habs & _).
  exists w'. split; [done|]. split; [done|].
  destruct (Map_get n m) as [r|] eqn:Hr.
  - destruct (Hdet r eq_refl) as (-> & _). subst w0.
    destruct (run_hook_fields prog OnPlayerLeaveGame [ArgLP (Some r)] w)
      as (-> & _). by rewrite <- app_assoc.
  - by destruct (Habs eq_refl) as (-> & _).
Qed.

Lemma leave_hook_then_remove_witness :
  ∃ w', _internal Example 0 (CallLeave 7) lobby = Done tt w'
        ∧ getById 7 w' = Done None w'
        ∧ trace w' = trace lobby ++
            [ObsHook OnPlayerLeaveGame [ArgLP (Some 0)]; ObsDetach 0; ObsDelete 7].
Proof.
  apply (leave_hook_then_remove Example 0 7 lobby [(7%Z, 0)]).
  reflexivity.
Defined.

(** C7. The global tick, with the observers [obs] subscribed to the
    mode when it fires: [emit('OngoingGlobal')] runs first and enters, in
    subscription order, the [OngoingGlobal] callback of each member of
    [obs] that has one (the others are skipped), then those of observers
    subscribed during this very tick ([ext]), and only then the hook
    [OngoingGlobal] is entered.  A callback is entered for an observer of
    [obs] only if it is subscribed and implements the capability, and once
    per subscription: without duplicates in [obs] there are none among
    the callbacks entered.  When no [OngoingGlobal] callback subscribes
    anything, the call returns with [length obs] fuel and [ext] is empty. *)
Theorem global_tick_fan_out prog fuel w obs :
  current_listeners TheMode w = Some obs →
  let fan := invocations prog TheMode OngoingGlobal [] in
  (∀ w', _internal prog fuel CallOngoingGlobal w = Done tt w' →
     ∃ ext, trace w' = trace w ++ ObsEmit TheMode OngoingGlobal []
                          :: fan obs ++ fan ext ++ [ObsHook OngoingGlobal []])
  ∧ (quiet prog OngoingGlobal → length obs ≤ fuel →
     ∃ w', _internal prog fuel CallOngoingGlobal w = Done tt w'
           ∧ trace w' = trace w ++ ObsEmit TheMode OngoingGlobal []
                          :: fan obs ++ [ObsHook OngoingGlobal []])
  ∧ (∀ l, ObsInvoke TheMode l OngoingGlobal [] ∈ fan obs
          ↔ l ∈ obs ∧ implements prog OngoingGlobal l)
  ∧ (NoDup obs → NoDup (fan obs)).
Proof.
  intros Hcur fan. split; [|split; [|split]].
  - intros w'. unfold _internal.
    destruct (emit prog fuel TheMode OngoingGlobal [] w) as [w1|] eqn:He; [|done].
    simpl. intros [= <-].
    destruct (emit_spec prog _ _ _ _ _ _ _ Hcur He) as (ext & Htr & _).
    exists ext.
    destruct (run_hook_fields prog OngoingGlobal [] w1) as (-> & _).
    rewrite Htr. unfold fan. rewrite invocations_app, <- !app_assoc. simpl.
    by rewrite <- app_assoc.
  - intros Hq Hlen.
    destruct (emit_quiet prog fuel TheMode OngoingGlobal [] w obs Hq Hcur Hlen)
      as (w1 & He & Htr).
    exists (run_hook prog OngoingGlobal [] w1). unfold _internal. rewrite He. simpl.
    split; [done|].
    destruct (run_hook_fields prog OngoingGlobal [] w1) as (-> & _).
    rewrite Htr, <- app_assoc. done.
  - intros l. apply invocations_elem.
  - apply invocations_NoDup.
Qed.

Lemma global_tick_fan_out_witness :
  ∃ w', _internal Sample 3 CallOngoingGlobal ticking = Done tt w'
        ∧ trace w' = [ObsEmit TheMode OngoingGlobal [];
                      ObsInvoke TheMode 1 OngoingGlobal [];
                      ObsInvoke TheMode 2 OngoingGlobal [];
                      ObsHook OngoingGlobal []].
Proof.
  destruct (global_tick_fan_out Sample 3 ticking [1; 3; 2] eq_refl) as (_ & Hq & _).
  apply Hq.
  - apply Sample_quiet.
  - simpl. lia.
Defined.

(** C8. [removePlayer(id)] on a state with a PlayerManager returns
    normally, without error.  When [id] has an entry [r], first the
    [listeners] field of [r] is set to a new empty array (no array that
    existed is touched), so that an [emit] through [r] enters no
    callback, and then the entry is deleted.  When [id] has no entry the
    store is left as it is.  A second call right after the first leaves
    the store (the registry and every logical player) as the first call
    left it. *)
Theorem removePlayer_detaches_and_is_idempotent prog id w m :
  registry_ok w →
  playerManager w = Some m →
  ∃ w1,
    removePlayer id w = Done tt w1
    ∧ playerManager w1 = Some (Map_delete id m)
    ∧ getById id w1 = Done None w1
    ∧ (∀ r, Map_get id m = Some r →
         trace w1 = trace w ++ [ObsDetach r; ObsDelete id]
         ∧ current_listeners (ThePlayer r) w1 = Some []
         ∧ arrays_stable w w1
         ∧ ∀ fuel ev args,
             emit prog fuel (ThePlayer r) ev args w1
             = Some (log (ObsEmit (ThePlayer r) ev args) w1))
    ∧ (Map_get id m = None → same_store w1 w)
    ∧ ∃ w2, removePlayer id w1 = Done tt w2 ∧ same_store w2 w1.
Proof.
  intros Hok Hm.
  destruct (removePlayer_spec id w m Hm)
    as (w1 & Hrun & Hpm & Hget & Hst & Hdet & Habs & Hidem).
  exists w1. repeat (split; [done|]). split; [|split; [|done]].
  - intros r Hr. destruct (Hdet r Hr) as [Htr Hcur].
    specialize (Hcur (registry_ok_lookup w m id r Hok Hm Hr)).
    repeat (split; [done|]). intros fuel ev args. by apply emit_no_listeners.
  - intros Hnone. by apply Habs.
Qed.

Lemma removePlayer_detaches_and_is_idempotent_witness :
  ∃ w1, removePlayer 7 lobby = Done tt w1
        ∧ playerManager w1 = Some []
        ∧ current_listeners (ThePlayer 0) w1 = Some [].
Proof.
  destruct (removePlayer_detaches_and_is_idempotent Example 7 lobby [(7%Z, 0)])
    as (w1 & Hrun & Hpm & _ & Hdet & _).
  - by apply (bool_decide_unpack _).
  - reflexivity.
  - exists w1. split; [exact Hrun|]. split; [exact Hpm|].
    by destruct (Hdet 0 eq_refl) as (_ & Hcur & _).
Defined.

(** C9. [removeListener] builds a new array and touches no array that
    exists.  So in one [emit] on a subject whose subscribers are [ls] at
    the call, whatever the callbacks do to the bus meanwhile, [emit]
    iterates the array it started on, and the callbacks entered are first
    those of all
    of [ls] (the members with the capability, in order), then those of
    listeners pushed onto that array during the call ([ext]).  So a
    listener of [ls] that a callback removes during the call is still
    invoked.  When the callbacks for [ev] only unsubscribe, the call
    returns with [length ls] fuel and enters exactly the callbacks of
    [ls]. *)
Theorem unsubscribe_during_emit_not_visible prog fuel s ev args w ls :
  current_listeners s w = Some ls →
  (∀ s' l w0, arrays_stable w0 (removeListener s' l w0))
  ∧ (∀ w', emit prog fuel s ev args w = Some w' →
     ∃ ext, trace w' = trace w ++ ObsEmit s ev args
                          :: invocations prog s ev args ls
                          ++ invocations prog s ev args ext)
  ∧ (∀ w' l, emit prog fuel s ev args w = Some w' →
       l ∈ ls → implements prog ev l →
       ObsInvoke s l ev args ∈ drop (length (trace w)) (trace w'))
  ∧ (quiet prog ev → length ls ≤ fuel →
     ∃ w', emit prog fuel s ev args w = Some w'
           ∧ trace w' = trace w ++ ObsEmit s ev args
                          :: invocations prog s ev args ls).
Proof.
  intros Hcur. split; [|split; [|split]].
  - intros s' l w0. apply removeListener_stable.
  - intros w' He. destruct (emit_spec prog _ _ _ _ _ _ _ Hcur He) as (ext & Htr & _).
    exists ext. by rewrite Htr, invocations_app.
  - intros w' l He Hin Himp.
    destruct (emit_spec prog _ _ _ _ _ _ _ Hcur He) as (ext & Htr & _).
    rewrite Htr, drop_app_length. apply elem_of_cons. right.
    rewrite invocations_app. apply elem_of_app. left.
    by apply invocations_elem.
  - intros Hq Hlen. by apply emit_quiet.
Qed.

Lemma unsubscribe_during_emit_not_visible_witness :
  ∃ w', emit Sample 3 TheMode OngoingGlobal [] ticking = Some w'
        ∧ trace w' = [ObsEmit TheMode OngoingGlobal [];
                      ObsInvoke TheMode 1 OngoingGlobal [];
                      ObsInvoke TheMode 2 OngoingGlobal []].
Proof.
  destruct (unsubscribe_during_emit_not_visible Sample 3 TheMode OngoingGlobal []
              ticking [1; 3; 2] eq_refl) as (_ & _ & _ & Hq).
  apply Hq.
  - apply Sample_quiet.
  - simpl. lia.
Defined.

(** In that run the first observer removes the second from the list of
    the mode; the second is invoked all the same, and is gone from the
    list afterwards. *)
Example removed_observer_still_invoked :
  emit Sample 3 TheMode OngoingGlobal [] ticking
  = Some (mkState [[1; 3; 2]; [1; 3]] [] None 1
            [ObsEmit TheMode OngoingGlobal [];
             ObsInvoke TheMode 1 OngoingGlobal [];
             ObsInvoke TheMode 2 OngoingGlobal []]).
Proof. reflexivity. Qed.

(** C10. A join for an id that is already registered returns the
    instance in the registry and changes nothing: the state after the
    call is the state before it, so the [players] map is as it was and
    no [OnPlayerJoinGame] notification (indeed no observation at all) was
    produced. *)
Theorem addPlayer_duplicate_no_effect prog fuel p w m r :
  playerManager w = Some m →
  Map_get (Mod.GetObjId p) m = Some r →
  addPlayer prog fuel p w = Done r w.
Proof. apply addPlayer_duplicate_lookup. Qed.

Lemma addPlayer_duplicate_no_effect_witness :
  addPlayer Example 0 ghost lobby = Done 0 lobby.
Proof.
  apply (addPlayer_duplicate_no_effect Example 0 ghost lobby [(7%Z, 0)] 0);
    reflexivity.
Defined.

(** * Further properties of the code *)

(** ** The listener bus *)

Lemma current_listeners_addListener s l w ls :
  current_listeners s w = Some ls →
  current_listeners s (addListener s l w) = Some (ls ++ [l]).
Proof.
  unfold current_listeners, addListener.
  destruct (listeners_of s w) as [a|] eqn:Hs; [|done]. simpl. intros Ha.
  rewrite Ha.
  assert (Hs' : listeners_of s (set_arrays (λ h, <[a:=ls ++ [l]]> h) w) = Some a)
    by (by destruct s).
  rewrite Hs'. simpl. apply list_lookup_insert_eq. by eapply lookup_lt_Some.
Qed.

Lemma current_listeners_removeListener s l w ls :
  current_listeners s w = Some ls →
  current_listeners s (removeListener s l w) = Some (filter (λ l', l' ≠ l) ls).
Proof.
  intros Hcur. unfold removeListener. rewrite Hcur. simpl.
  unfold current_listeners in *. destruct s as [|r]; simpl in *.
  - by rewrite lookup_app_r, Nat.sub_diag.
  - destruct (objects w !! r) as [o|] eqn:Ho; [|done]. simpl.
    rewrite list_lookup_insert_eq by by eapply lookup_lt_Some.
    simpl. by rewrite lookup_app_r, Nat.sub_diag.
Qed.

(** X1. On a subject with the subscribers [ls]: [addListener(l)] appends
    [l] (also when it is there already); [removeListener(l)] keeps the
    others in their order and removes every registration of [l], so that
    [l] is not subscribed afterwards; and subscribing [l] and then
    unsubscribing it gives back [ls] when [l] was not subscribed
    before. *)
Theorem subscribe_unsubscribe s l w ls :
  current_listeners s w = Some ls →
  current_listeners s (addListener s l w) = Some (ls ++ [l])
  ∧ current_listeners s (removeListener s l w) = Some (filter (λ l', l' ≠ l) ls)
  ∧ (∀ ls', current_listeners s (removeListener s l w) = Some ls' → l ∉ ls')
  ∧ (l ∉ ls →
     current_listeners s (removeListener s l (addListener s l w)) = Some ls).
Proof.
  intros Hcur. split; [by apply current_listeners_addListener|].
  split; [by apply current_listeners_removeListener|]. split.
  - intros ls'. rewrite (current_listeners_removeListener s l w ls Hcur).
    intros [= <-] [Hne _]%list_elem_of_filter. done.
  - intros Hnotin.
    rewrite (current_listeners_removeListener s l _ (ls ++ [l]))
      by by apply current_listeners_addListener.
    rewrite filter_app, (filter_cons_False (λ l', l' ≠ l)) by naive_solver.
    rewrite filter_nil, app_nil_r. f_equal.
    clear Hcur. induction ls as [|x ls IH]; [done|].
    apply not_elem_of_cons in Hnotin as [Hx Hls].
    rewrite (filter_cons_True (λ l', l' ≠ l)) by done. f_equal. by apply IH.
Qed.

Lemma subscribe_unsubscribe_witness :
  current_listeners TheMode (removeListener TheMode 2 (addListener TheMode 2 solo))
  = Some [1].
Proof.
  destruct (subscribe_unsubscribe TheMode 2 solo [1] eq_refl) as (_ & _ & _ & Hround).
  apply Hround. intros Hin. apply list_elem_of_singleton in Hin. discriminate.
Defined.

Section BusEdges.

Variable prog : Program.

Lemma run_script_subscribes_only cs s w :
  subscribes_only cs →
  listeners_of s (run_script cs w) = listeners_of s w.
Proof.
  unfold run_script, subscribes_only. revert w.
  induction cs as [|c cs IH]; intros w Hcs; simpl; [done|].
  apply Forall_cons in Hcs as [Hc Hcs]. rewrite IH by done.
  destruct c as [s' l|]; [|done]. simpl.
  destruct (addListener_fields s' l w) as (_ & _ & Hob & Hgm).
  destruct s; simpl; by rewrite ?Hob, ?Hgm.
Qed.

Lemma emit_from_eager fuel s ev args a i w w' :
  eager prog ev →
  emit_from prog fuel s ev args a i w = Some w' →
  listeners_of s w' = listeners_of s w.
Proof.
  intros He. revert i w. induction fuel as [|fuel IH]; intros i w; simpl.
  - destruct (arrays w !! a ≫= _); [done|]. by intros [= <-].
  - destruct (arrays w !! a ≫= _) as [l|]; [|by intros [= <-]].
    intros Hrun. rewrite (IH _ _ Hrun). unfold invoke.
    destruct (callback prog l ev) as [body|] eqn:Hc; [|done].
    rewrite run_script_subscribes_only by eauto. by destruct s.
Qed.

(** X2. When the callbacks for [ev] only subscribe, a listener pushed
    onto the list of the subject during an [emit] is invoked in that same
    [emit]: if the call returns, everything subscribed at its end (the
    subscribers [ls] at the call followed by those pushed meanwhile) has
    been entered, in that order, once per registration. *)
Theorem subscription_during_emit_is_visible fuel s ev args w w' ls :
  eager prog ev →
  current_listeners s w = Some ls →
  emit prog fuel s ev args w = Some w' →
  ∃ ext, current_listeners s w' = Some (ls ++ ext)
         ∧ trace w' = trace w ++ ObsEmit s ev args
                        :: invocations prog s ev args (ls ++ ext).
Proof.
  intros Heager Hcur. unfold current_listeners in *. unfold emit.
  change (listeners_of s (log (ObsEmit s ev args) w)) with (listeners_of s w).
  destruct (listeners_of s w) as [a|] eqn:Hs; [|done]. simpl in Hcur.
  intros Hrun.
  destruct (emit_from_spec prog fuel s ev args a 0 (log (ObsEmit s ev args) w)
              w' ls Hcur Hrun) as (ext & Ha & Htr & _).
  exists ext. rewrite (emit_from_eager _ _ _ _ _ _ _ _ Heager Hrun).
  change (listeners_of s (log (ObsEmit s ev args) w)) with (listeners_of s w).
  rewrite Hs. simpl. split; [done|].
  rewrite Htr. simpl. by rewrite <- app_assoc.
Qed.

Lemma emit_from_resubscribing fuel s ev args a i w L :
  listeners_of s w = Some a →
  arrays w !! a = Some L →
  Forall (λ l, ∃ body, callback prog l ev = Some body
                       ∧ body args = [AddListener s l]) L →
  i < length L →
  emit_from prog fuel s ev args a i w = None.
Proof.
  revert i w L. induction fuel as [|fuel IH]; intros i w L Hs Ha HL Hi; simpl;
    rewrite Ha; simpl.
  - by destruct (lookup_lt_is_Some_2 L i Hi) as [l ->].
  - destruct (lookup_lt_is_Some_2 L i Hi) as [l Hl]. rewrite Hl.
    pose proof HL as HL'. rewrite Forall_forall in HL'.
    destruct (HL' l (list_elem_of_lookup_2 _ _ _ Hl)) as (body & Hc & Hbody).
    unfold invoke. rewrite Hc, Hbody.
    assert (Hs' : listeners_of s (log (ObsInvoke s l ev args) w) = Some a)
      by (by destruct s).
    assert (Ha' : arrays (log (ObsInvoke s l ev args) w) !! a = Some L) by done.
    apply (IH (S i) _ (L ++ [l])).
    + cbn [run_script foldl run_cmd].
      destruct (addListener_fields s l (log (ObsInvoke s l ev args) w))
        as (_ & _ & Hob & Hgm).
      rewrite <- Hs'. destruct s; simpl; by rewrite ?Hob, ?Hgm.
    + cbn [run_script foldl run_cmd]. unfold addListener. rewrite Hs', Ha'. simpl.
      apply list_lookup_insert_eq. by eapply lookup_lt_Some.
    + apply Forall_app. split; [done|]. constructor; [eauto|constructor].
    + rewrite length_app. simpl. lia.
Qed.

(** X3. [emit] has no guard against re-entrant subscription: when each
    subscriber's callback for the event subscribes that same listener to
    the subject again, the loop never reaches the end of the array, and
    [emit] does not return, whatever the fuel. *)
Theorem emit_diverges_on_resubscription fuel s ev args w ls :
  current_listeners s w = Some ls →
  ls ≠ [] →
  Forall (λ l, ∃ body, callback prog l ev = Some body
                       ∧ body args = [AddListener s l]) ls →
  emit prog fuel s ev args w = None.
Proof.
  intros Hcur Hne Hall. unfold current_listeners in Hcur. unfold emit.
  change (listeners_of s (log (ObsEmit s ev args) w)) with (listeners_of s w).
  destruct (listeners_of s w) as [a|] eqn:Hs; [|done]. simpl in Hcur.
  apply (emit_from_resubscribing fuel s ev args a 0 _ ls); [by destruct s|done..|].
  destruct ls; [done|simpl; lia].
Qed.

End BusEdges.

Lemma subscription_during_emit_is_visible_witness :
  ∃ ext, current_listeners TheMode
           (mkState [[1; 2]] [] None 0
              [ObsEmit TheMode OngoingGlobal [];
               ObsInvoke TheMode 1 OngoingGlobal [];
               ObsInvoke TheMode 2 OngoingGlobal []])
         = Some ([1] ++ ext).
Proof.
  destruct (subscription_during_emit_is_visible Chain 2 TheMode OngoingGlobal []
              solo
              (mkState [[1; 2]] [] None 0
                 [ObsEmit TheMode OngoingGlobal [];
                  ObsInvoke TheMode 1 OngoingGlobal [];
                  ObsInvoke TheMode 2 OngoingGlobal []])
              [1]) as (ext & Hcur & _).
  - intros l body args Hc.
    destruct l as [|[|[|l]]]; simpl in Hc; try discriminate Hc;
      injection Hc as <-; repeat constructor.
  - reflexivity.
  - reflexivity.
  - by exists ext.
Defined.

Lemma emit_diverges_on_resubscription_witness :
  emit Selfish 1000 TheMode OngoingGlobal [] solo = None.
Proof.
  apply (emit_diverges_on_resubscription Selfish 1000 TheMode OngoingGlobal [] solo [1]).
  - reflexivity.
  - discriminate.
  - constructor; [|constructor]. by eexists.
Defined.

(** ** The registry: lookups after joins and removals *)

Lemma Map_get_app id (m m' : PlayersMap) :
  Map_get id (m ++ m') =
  match Map_get id m with
  | Some r => Some r
  | None => Map_get id m'
  end.
Proof.
  induction m as [|[k v] m IH]; simpl; [done|]. by case_bool_decide.
Qed.

Lemma Map_get_delete_ne id id' m :
  id' ≠ id → Map_get id' (Map_delete id m) = Map_get id' m.
Proof.
  intros Hne. unfold Map_delete. induction m as [|[k v] m IH]; [done|].
  rewrite filter_cons. simpl. destruct (decide (k ≠ id)) as [Hk|Hk]; simpl.
  - by rewrite IH.
  - rewrite IH. case_bool_decide; [|done]. subst k. by destruct Hk.
Qed.

(** The instances under the ids other than [id]. *)
Lemma Map_delete_values id r m :
  Map_ok m → NoDup m.*2 → Map_get id m = Some r →
  r ∉ (Map_delete id m).*2.
Proof.
  unfold Map_ok, Map_delete. induction m as [|[k v] m IH]; simpl; [done|].
  rewrite !NoDup_cons. intros [Hk Hks] [Hv Hvs]. rewrite filter_cons. simpl.
  case_bool_decide as Hkid.
  - intros [= ->]. subst k. rewrite decide_False by naive_solver.
    intros ([k' v'] & -> & [_ Hin]%list_elem_of_filter)%list_elem_of_fmap.
    apply Hv. apply list_elem_of_fmap. by exists (k', v').
  - intros Hget. rewrite decide_True by done. simpl.
    apply not_elem_of_cons. split; [|by apply IH].
    intros ->. apply Hv. apply list_elem_of_fmap. exists (id, v).
    split; [done|]. by apply Map_get_Some.
Qed.

(** X4. Join and lookup: when [addPlayer(p)] returns the instance [r],
    [getById] of the id of [p] gives [r]; [get(p)] gives [r] if the host
    holds [p] valid, and [undefined] if not, although [p] was registered;
    and the entry of every other id is what it was. *)
Theorem addPlayer_then_lookup prog fuel p w r w' :
  addPlayer prog fuel p w = Done r w' →
  getById (Mod.GetObjId p) w' = Done (Some r) w'
  ∧ get p w' = Done (if Mod.IsPlayerValid p then Some r else None) w'
  ∧ ∀ id' x, id' ≠ Mod.GetObjId p →
      getById id' w = Done x w → getById id' w' = Done x w'.
Proof.
  intros Hadd.
  destruct (playerManager w) as [m|] eqn:Hm;
    [|unfold addPlayer in Hadd; by rewrite Hm in Hadd].
  assert (∃ m', playerManager w' = Some m'
                ∧ Map_get (Mod.GetObjId p) m' = Some r
                ∧ ∀ id', id' ≠ Mod.GetObjId p → Map_get id' m' = Map_get id' m)
    as (m' & Hm' & Hget' & Hother).
  { destruct (Map_get (Mod.GetObjId p) m) as [r0|] eqn:Hget.
    - rewrite (addPlayer_duplicate_lookup fuel p w m r0 Hm Hget) in Hadd.
      injection Hadd as <- <-. by exists m.
    - destruct (addPlayer_fresh_spec prog _ _ _ _ _ _ Hm Hget Hadd) as (-> & Hm' & _).
      eexists. split; [exact Hm'|]. split.
      + rewrite Map_get_app, Hget. simpl. by rewrite bool_decide_eq_true_2.
      + intros id' Hne. rewrite Map_get_app. destruct (Map_get id' m); [done|].
        simpl. by rewrite bool_decide_eq_false_2. }
  split; [|split].
  - unfold getById. by rewrite Hm', Hget'.
  - unfold get, resolve. rewrite Hm'. destruct (Mod.IsPlayerValid p); simpl; [|done].
    by rewrite Hget'.
  - intros id' x Hne. unfold getById. rewrite Hm, Hm'. intros [= <-].
    by rewrite Hother.
Qed.

Lemma addPlayer_then_lookup_witness :
  getById 9 hall_two = Done (Some 1) hall_two.
Proof.
  exact (proj1 (addPlayer_then_lookup Sample 1 bob hall 1 hall_two eq_refl)).
Defined.

(** X5. [removePlayer(id)] touches nothing but its own entry and its own
    instance: the entry of every other id, and the subscribers of the
    mode and of every instance other than the one removed, are what they
    were. *)
Theorem removePlayer_frame id w w1 :
  store_ok w →
  removePlayer id w = Done tt w1 →
  (∀ id' x, id' ≠ id → getById id' w = Done x w → getById id' w1 = Done x w1)
  ∧ (∀ s, (∀ r, getById id w = Done (Some r) w → s ≠ ThePlayer r) →
       current_listeners s w1 = current_listeners s w).
Proof.
  intros [Hgm Hobj]. unfold removePlayer, getById.
  destruct (playerManager w) as [m|] eqn:Hm; [|done]. intros [= <-]. split.
  - intros id' x Hne [= <-]. simpl. by rewrite Map_get_delete_ne.
  - intros s Hs.
    change (current_listeners s (log ?o (set_playerManager ?x ?w0)))
      with (current_listeners s w0).
    destruct (Map_get id m) as [r|] eqn:Hr; [|done].
    assert (Hsr : s ≠ ThePlayer r) by (by apply Hs).
    change (current_listeners s
              (set_listeners (ThePlayer r) (length (arrays w))
                 (set_arrays (λ h, h ++ [[]]) w))
            = current_listeners s w).
    unfold current_listeners. destruct s as [|r']; simpl.
    + destruct (objects w !! r); simpl; by apply lookup_app_l.
    + assert (Hne : r ≠ r') by congruence.
      assert (Hlook : ∀ o', objects w !! r' = Some o' →
                arrays w !! listeners o' = (arrays w ++ [[]]) !! listeners o').
      { intros o' Ho'. symmetry. apply lookup_app_l.
        rewrite Forall_forall in Hobj. apply Hobj.
        by eapply list_elem_of_lookup_2. }
      destruct (objects w !! r) as [o|]; simpl.
      * rewrite list_lookup_insert_ne by done.
        destruct (objects w !! r') as [o'|] eqn:Ho'; [|done]. simpl.
        symmetry. by apply Hlook.
      * destruct (objects w !! r') as [o'|] eqn:Ho'; [|done]. simpl.
        symmetry. by apply Hlook.
Qed.

Lemma removePlayer_frame_witness :
  current_listeners TheMode lobby_left = current_listeners TheMode lobby.
Proof.
  destruct (removePlayer_frame 7 lobby lobby_left) as [_ Hsubs].
  - by apply (bool_decide_unpack _).
  - reflexivity.
  - apply Hsubs. intros r _. discriminate.
Defined.

(** X6. A player that left and joins again under the same id gets a new
    instance: it is not the instance removed, it is registered under the
    id, and the instance removed is registered under no id any more. *)
Theorem rejoin_makes_new_instance prog fuel p w m r w1 r' w2 :
  registry_ok w →
  instances_distinct w →
  playerManager w = Some m →
  Map_get (Mod.GetObjId p) m = Some r →
  removePlayer (Mod.GetObjId p) w = Done tt w1 →
  addPlayer prog fuel p w1 = Done r' w2 →
  r' ≠ r
  ∧ r' = length (objects w)
  ∧ getById (Mod.GetObjId p) w2 = Done (Some r') w2
  ∧ ∀ id', getById id' w2 ≠ Done (Some r) w2.
Proof.
  intros Hok Hdist Hm Hget Hrem Hadd.
  pose proof (registry_ok_lookup w m _ r Hok Hm Hget) as Hr.
  apply lookup_lt_is_Some in Hr.
  unfold registry_ok in Hok. unfold instances_distinct in Hdist.
  rewrite Hm in Hok, Hdist. destruct Hok as [Hmok Hrefs].
  destruct (removePlayer_spec (Mod.GetObjId p) w m Hm)
    as (w1' & Hrem' & Hm1 & _ & _ & _).
  rewrite Hrem in Hrem'. injection Hrem' as <-.
  assert (Hob1 : length (objects w1) = length (objects w)).
  { revert Hrem. unfold removePlayer. rewrite Hm, Hget. intros [= <-].
    by destruct (set_listeners_fields (ThePlayer r) (length (arrays w))
                   (set_arrays (λ h, h ++ [[]]) w)) as (_ & _ & _ & Hlen). }
  destruct (addPlayer_fresh_spec prog _ _ _ _ _ _ Hm1 (Map_get_delete_eq _ _) Hadd)
    as (-> & Hm2 & _).
  rewrite Hob1 in *. split; [lia|]. split; [done|]. split.
  - unfold getById. rewrite Hm2, Map_get_app, Map_get_delete_eq. simpl.
    by rewrite bool_decide_eq_true_2.
  - intros id'. unfold getById. rewrite Hm2. intros [= Hid'].
    apply Map_get_Some in Hid'.
    apply elem_of_app in Hid' as [Hin|Hin%list_elem_of_singleton].
    + apply (Map_delete_values (Mod.GetObjId p) r m Hmok Hdist Hget).
      apply list_elem_of_fmap. by exists (id', r).
    + injection Hin as _ Hin. lia.
Qed.

Lemma rejoin_makes_new_instance_witness :
  1 ≠ 0 ∧ getById 7 lobby_rejoined = Done (Some 1) lobby_rejoined.
Proof.
  destruct (rejoin_makes_new_instance Example 0 alice lobby [(7%Z, 0)] 0
              lobby_left 1 lobby_rejoined) as (Hne & _ & Hget & _).
  - by apply (bool_decide_unpack _).
  - by apply (bool_decide_unpack _).
  - reflexivity.
  - reflexivity.
  - reflexivity.
  - reflexivity.
  - by split.
Defined.



(** ** Well-formed stores *)

(** What every primitive step of the code keeps, every call keeps. *)
Section Preservation.

Variable prog : Program.
Variable Inv : State → Prop.

Hypothesis Inv_log : ∀ o w, Inv w → Inv (log o w).
Hypothesis Inv_manager : ∀ m w, Inv w → Inv (set_playerManager m w).
Hypothesis Inv_addListener : ∀ s l w, Inv w → Inv (addListener s l w).
Hypothesis Inv_removeListener : ∀ s l w, Inv w → Inv (removeListener s l w).
Hypothesis Inv_createPlayer : ∀ p w, Inv w → Inv (createPlayer prog p w).2.
Hypothesis Inv_detach :
  ∀ r w, Inv w →
    Inv (set_listeners (ThePlayer r) (length (arrays w))
           (set_arrays (λ h, h ++ [[]]) w)).

Lemma run_script_preserves cs w : Inv w → Inv (run_script cs w).
Proof.
  unfold run_script. revert w. induction cs as [|c cs IH]; intros w Hw; simpl; [done|].
  apply IH. destruct c; simpl; auto.
Qed.

Lemma run_hook_preserves ev args w : Inv w → Inv (run_hook prog ev args w).
Proof. intros Hw. by apply run_script_preserves, Inv_log. Qed.

Lemma emit_from_preserves fuel s ev args a i w w' :
  Inv w → emit_from prog fuel s ev args a i w = Some w' → Inv w'.
Proof.
  revert i w. induction fuel as [|fuel IH]; intros i w Hw; simpl.
  - destruct (arrays w !! a ≫= _); [done|]. by intros [= <-].
  - destruct (arrays w !! a ≫= _) as [l|]; [|by intros [= <-]].
    apply IH. unfold invoke. destruct (callback prog l ev); [|done].
    by apply run_script_preserves, Inv_log.
Qed.

Lemma emit_preserves fuel s ev args w w' :
  Inv w → emit prog fuel s ev args w = Some w' → Inv w'.
Proof.
  unfold emit. intros Hw.
  destruct (listeners_of s (log (ObsEmit s ev args) w)) as [a|].
  - apply emit_from_preserves. by apply Inv_log.
  - intros [= <-]. by apply Inv_log.
Qed.

Lemma notify_others_preserves fuel others r w w' :
  Inv w → notify_others prog fuel others r w = Some w' → Inv w'.
Proof.
  revert w. induction others as [|other rest IH]; intros w Hw; simpl.
  - by intros [= <-].
  - case_bool_decide; [|by apply IH].
    destruct (emit prog fuel (ThePlayer other) OnPlayerJoinGame [ArgLP (Some r)] w)
      as [w1|] eqn:He; [|done].
    simpl. apply IH. by eapply emit_preserves.
Qed.

Lemma addPlayer_preserves fuel p w r w' :
  Inv w → addPlayer prog fuel p w = Done r w' → Inv w'.
Proof.
  intros Hw. unfold addPlayer. destruct (playerManager w) as [m|]; [|done].
  destruct (Map_get _ m); [by intros [= _ <-]|].
  pose proof (Inv_createPlayer p w Hw) as Hw1.
  destruct (createPlayer prog p w) as [r1 w1]. simpl in Hw1.
  destruct (notify_others prog fuel _ _ _) as [w3|] eqn:Hn; [|done].
  intros [= _ <-]. eapply notify_others_preserves; [|exact Hn].
  by apply Inv_log, Inv_manager.
Qed.

Lemma removePlayer_preserves id w w' :
  Inv w → removePlayer id w = Done tt w' → Inv w'.
Proof.
  intros Hw. unfold removePlayer. destruct (playerManager w) as [m|]; [|done].
  intros [= <-]. apply Inv_log, Inv_manager.
  destruct (Map_get id m) as [r|]; [|done]. simpl.
  by apply Inv_log, Inv_detach.
Qed.

Lemma forward_preserves fuel ev r rest w w' :
  Inv w → forward prog fuel ev r rest w = Done tt w' → Inv w'.
Proof.
  intros Hw. unfold forward, PlayerManager_On. destruct (playerManager w); [|done].
  destruct (emit prog fuel (ThePlayer r) ev rest w) as [w1|] eqn:He; [|done].
  simpl. intros [= <-]. apply run_hook_preserves. by eapply emit_preserves.
Qed.

Lemma internal_preserves fuel c w w' :
  Inv w → _internal prog fuel c w = Done tt w' → Inv w'.
Proof.
  intros Hw. destruct c as [k extra| |p|k p extra|k p q extra|p|n]; simpl.
  - intros [= <-]. by apply run_hook_preserves.
  - destruct (emit prog fuel TheMode OngoingGlobal [] w) as [w1|] eqn:He; [|done].
    simpl. intros [= <-]. apply run_hook_preserves. by eapply emit_preserves.
  - destruct (playerManager w) as [m|] eqn:Hm; [|by intros [= <-]].
    unfold lp, get. rewrite Hm. simpl.
    destruct (resolve p m) as [r|] eqn:Hres; [|by intros [= <-]].
    unfold tick, get. rewrite Hm, Hres. simpl. intros Hrun.
    apply (forward_preserves fuel OngoingPlayer r [] w w' Hw).
    unfold forward, PlayerManager_On. by rewrite Hm.
  - unfold lp, get. destruct (playerManager w) as [m|] eqn:Hm; [|done]. simpl.
    destruct (resolve p m) as [r|]; [|by intros [= <-]].
    by apply forward_preserves.
  - unfold lp, get. destruct (playerManager w) as [m|] eqn:Hm; [|done]. simpl.
    destruct (resolve p m) as [r|]; [|by intros [= <-]].
    rewrite Hm. simpl. by apply forward_preserves.
  - set (w0 := match playerManager w with Some _ => w | None => _ end).
    assert (Hw0 : Inv w0).
    { subst w0. destruct (playerManager w); [done|]. by apply Inv_manager. }
    destruct (addPlayer prog fuel p w0) as [r w1| |] eqn:Hadd; [|done..].
    simpl. intros [= <-]. apply run_hook_preserves. by eapply addPlayer_preserves.
  - unfold lpId, getById. destruct (playerManager w) as [m|] eqn:Hm; [|done]. simpl.
    apply removePlayer_preserves.
    destruct (Map_get n m); [by apply run_hook_preserves|done].
Qed.

End Preservation.

Lemma insert_elem (L : list nat) i a x : x ∈ <[i:=a]> L → x = a ∨ x ∈ L.
Proof.
  revert i. induction L as [|y L IH]; intros i; [by right|].
  destruct i as [|i]; simpl.
  - intros [->|Hx]%elem_of_cons; [by left|]. right. by apply elem_of_cons; right.
  - intros [->|Hx]%elem_of_cons; [right; by apply elem_of_cons; left|].
    destruct (IH _ Hx) as [->|Hin]; [by left|]. right. by apply elem_of_cons; right.
Qed.

Lemma NoDup_insert_fresh (L : list nat) i a :
  NoDup L → a ∉ L → NoDup (<[i:=a]> L).
Proof.
  revert i. induction L as [|y L IH]; intros i HL Ha; [done|].
  apply NoDup_cons in HL as [Hy HL]. apply not_elem_of_cons in Ha as [Hay Ha].
  destruct i as [|i]; simpl; apply NoDup_cons.
  - by split.
  - split; [|by apply IH].
    intros [->|Hin]%insert_elem; done.
Qed.

Lemma fresh_array_not_held w :
  store_ok w → length (arrays w) ∉ gm_listeners w :: (listeners <$> objects w).
Proof.
  intros [Hgm Hobj]. apply not_elem_of_cons. split; [lia|].
  intros (o & Heq & Hin)%list_elem_of_fmap.
  rewrite Forall_forall in Hobj. specialize (Hobj _ Hin). lia.
Qed.

Lemma heap_ok_set_fresh s x w :
  heap_ok w →
  heap_ok (set_listeners s (length (arrays w)) (set_arrays (λ h, h ++ [x]) w)).
Proof.
  intros [Hs Hna]. split.
  - apply store_ok_set_listeners; [|by apply store_ok_alloc].
    simpl. rewrite length_app. simpl. lia.
  - pose proof (fresh_array_not_held w Hs) as Hfresh.
    unfold no_alias in *. apply not_elem_of_cons in Hfresh as [Hgm Hfr].
    apply NoDup_cons in Hna as [Hgmn Hnd].
    destruct s as [|r]; simpl.
    + apply NoDup_cons. by split.
    + destruct (objects w !! r) as [o|]; simpl; [|by apply NoDup_cons].
      rewrite list_fmap_insert. simpl. apply NoDup_cons. split.
      * intros [Heq|Hin]%insert_elem; [lia|done].
      * by apply NoDup_insert_fresh.
Qed.

Lemma heap_ok_addListener s l w : heap_ok w → heap_ok (addListener s l w).
Proof.
  intros [Hs Hna]. split; [by apply store_ok_addListener|].
  unfold no_alias in *.
  by destruct (addListener_fields s l w) as (_ & _ & -> & ->).
Qed.

Lemma heap_ok_removeListener s l w : heap_ok w → heap_ok (removeListener s l w).
Proof.
  intros Hw. unfold removeListener.
  destruct (current_listeners s w) as [ls|]; [|done]. simpl.
  by apply heap_ok_set_fresh.
Qed.

Lemma heap_ok_createPlayer prog p w : heap_ok w → heap_ok (createPlayer prog p w).2.
Proof.
  intros [Hs Hna]. unfold createPlayer. simpl.
  generalize (ctor_listeners prog (length (objects w)) p). intros ls.
  set (w2 := set_objects _ _).
  assert (H2 : heap_ok w2).
  { split.
    - subst w2. destruct (store_ok_alloc [] w Hs) as [Hgm Hobj].
      split; [done|]. simpl in *. apply Forall_app. split; [done|].
      constructor; [|done]. simpl. rewrite length_app. simpl. lia.
    - subst w2. unfold no_alias in *. simpl. rewrite fmap_app. simpl.
      rewrite app_comm_cons. apply NoDup_app. split; [done|].
      split; [|apply NoDup_singleton].
      intros x Hx ->%list_elem_of_singleton.
      by apply (fresh_array_not_held w Hs). }
  revert H2. generalize w2. clear w2.
  induction ls as [|l ls IH]; intros w2 H2; simpl; [done|].
  by apply IH, heap_ok_addListener.
Qed.

Lemma heap_ok_internal prog fuel c w w' :
  heap_ok w → _internal prog fuel c w = Done tt w' → heap_ok w'.
Proof.
  apply (internal_preserves prog heap_ok); try done.
  - apply heap_ok_addListener.
  - apply heap_ok_removeListener.
  - apply heap_ok_createPlayer.
  - intros r w0. apply heap_ok_set_fresh.
Qed.

Lemma registry_sound_frame w w' :
  playerManager w' = playerManager w →
  length (objects w) ≤ length (objects w') →
  registry_sound w → registry_sound w'.
Proof.
  intros Hpm Hlen [Hr Hd]. split; [by eapply registry_ok_frame|].
  unfold instances_distinct in *. by rewrite Hpm.
Qed.

Lemma registry_sound_addPlayer prog fuel p w r w' :
  registry_sound w → addPlayer prog fuel p w = Done r w' → registry_sound w'.
Proof.
  intros [Hr Hd] Hadd. split; [by eapply registry_ok_addPlayer|].
  destruct (playerManager w) as [m|] eqn:Hm;
    [|unfold addPlayer in Hadd; by rewrite Hm in Hadd].
  destruct (Map_get (Mod.GetObjId p) m) as [r0|] eqn:Hget.
  - rewrite (addPlayer_duplicate_lookup fuel p w m r0 Hm Hget) in Hadd.
    by injection Hadd as _ <-.
  - destruct (addPlayer_fresh_spec prog _ _ _ _ _ _ Hm Hget Hadd) as (-> & Hm' & _).
    unfold instances_distinct, registry_ok in *. rewrite Hm', fmap_app.
    rewrite Hm in Hr, Hd. destruct Hr as [_ Hrefs].
    apply NoDup_app. split; [done|]. split; [|apply NoDup_singleton].
    intros x Hx Hx'. apply list_elem_of_singleton in Hx'. subst x.
    apply list_elem_of_fmap in Hx as ([k v] & Heq & Hin).
    rewrite Forall_forall in Hrefs. specialize (Hrefs _ Hin). simpl in *. lia.
Qed.

Lemma registry_sound_removePlayer id w w' :
  registry_sound w → removePlayer id w = Done tt w' → registry_sound w'.
Proof.
  intros [Hr Hd] Hrem. split; [by eapply registry_ok_removePlayer|].
  revert Hrem. unfold removePlayer, instances_distinct in *.
  destruct (playerManager w) as [m|]; [|done]. intros [= <-]. simpl.
  eapply sublist_NoDup; [exact Hd|]. apply fmap_sublist, sublist_filter.
Qed.

Lemma registry_sound_internal prog fuel c w w' :
  registry_sound w → _internal prog fuel c w = Done tt w' → registry_sound w'.
Proof.
  intros Hw. destruct c as [k extra| |p|k p extra|k p q extra|p|n]; simpl.
  - intros [= <-]. destruct (run_hook_fields prog (EvWorld k) (ArgHost <$> extra) w)
      as (_ & Hpm & Hob).
    revert Hw. apply registry_sound_frame; [done|lia].
  - destruct (emit prog fuel TheMode OngoingGlobal [] w) as [w1|] eqn:He; [|done].
    simpl. intros [= <-].
    destruct (emit_frame prog _ _ _ _ _ _ He) as (ls & _ & Hpm & Hob & _).
    destruct (run_hook_fields prog OngoingGlobal [] w1) as (_ & Hpm' & Hob').
    revert Hw. apply registry_sound_frame; [congruence|lia].
  - destruct (playerManager w) as [m|] eqn:Hm; [|by intros [= <-]].
    unfold lp, get. rewrite Hm. simpl.
    destruct (resolve p m) as [r|] eqn:Hres; [|by intros [= <-]].
    unfold tick, get. rewrite Hm, Hres. simpl. intros Hrun.
    assert (Hfw : forward prog fuel OngoingPlayer r [] w = Done tt w')
      by (unfold forward, PlayerManager_On; by rewrite Hm).
    destruct (forward_spec prog _ _ _ _ _ _ Hfw) as (ls & _ & Hpm & Hob & _).
    revert Hw. apply registry_sound_frame; [done|lia].
  - unfold lp, get. destruct (playerManager w) as [m|] eqn:Hm; [|done]. simpl.
    destruct (resolve p m) as [r|]; [|by intros [= <-]]. intros Hfw.
    destruct (forward_spec prog _ _ _ _ _ _ Hfw) as (ls & _ & Hpm & Hob & _).
    revert Hw. apply registry_sound_frame; [congruence|lia].
  - unfold lp, get. destruct (playerManager w) as [m|] eqn:Hm; [|done]. simpl.
    destruct (resolve p m) as [r|]; [|by intros [= <-]]. rewrite Hm. simpl.
    intros Hfw.
    destruct (forward_spec prog _ _ _ _ _ _ Hfw) as (ls & _ & Hpm & Hob & _).
    revert Hw. apply registry_sound_frame; [congruence|lia].
  - set (w0 := match playerManager w with Some _ => w | None => _ end).
    assert (Hw0 : registry_sound w0).
    { subst w0. destruct (playerManager w) eqn:Hm; [done|].
      split; [split; [apply NoDup_nil_2|constructor]|apply NoDup_nil_2]. }
    destruct (addPlayer prog fuel p w0) as [r w1| |] eqn:Hadd; [|done..].
    simpl. intros [= <-].
    destruct (run_hook_fields prog OnPlayerJoinGame [ArgLP (Some r)] w1)
      as (_ & Hpm & Hob).
    apply (registry_sound_frame w1); [done|lia|].
    by eapply registry_sound_addPlayer.
  - unfold lpId, getById. destruct (playerManager w) as [m|] eqn:Hm; [|done]. simpl.
    apply registry_sound_removePlayer.
    destruct (Map_get n m) as [r|]; [|done].
    destruct (run_hook_fields prog OnPlayerLeaveGame [ArgLP (Some r)] w)
      as (_ & Hpm & Hob).
    revert Hw. apply registry_sound_frame; [done|lia].
Qed.

(** X8. Every state the host can drive a new mode into, by whatever
    calls and with whatever program, is well formed: every [listeners]
    field holds an array of its own that exists, the ids of the registry
    are unique, its references are live, and no instance is registered
    twice. *)
Theorem reachable_states_well_formed prog fuel cs w' :
  run prog fuel cs new_GameMode = Done tt w' →
  well_formed w'.
Proof.
  assert (Hgen : ∀ w, heap_ok w ∧ registry_sound w →
            run prog fuel cs w = Done tt w' → heap_ok w' ∧ registry_sound w').
  { induction cs as [|c cs IH]; intros w Hok; simpl.
    - by intros [= <-].
    - destruct (_internal prog fuel c w) as [[] w1| |] eqn:Hc; [|done..].
      simpl. apply IH. destruct Hok as [Hh Hr]. split.
      + by eapply heap_ok_internal.
      + by eapply registry_sound_internal. }
  intros Hrun. destruct (Hgen new_GameMode) as [[Hs Hna] [Hr Hd]]; [|done|done].
  split; [split|done].
  - split; [simpl; lia|constructor].
  - unfold no_alias. simpl. apply NoDup_singleton.
Qed.

Lemma reachable_states_well_formed_witness : well_formed lobby.
Proof.
  exact (reachable_states_well_formed Example 0
           [CallWorld OnGameModeStarted []; CallJoin alice] lobby eq_refl).
Defined.

(** ** The router: exceptions, the life of the PlayerManager, delivery *)

Section RouterEdges.

Variable prog : Program.

Lemma forward_not_TypeError fuel ev r rest w w' :
  is_Some (playerManager w) → forward prog fuel ev r rest w ≠ TypeError w'.
Proof.
  intros [m Hm]. unfold forward, PlayerManager_On. rewrite Hm.
  by destruct (emit prog fuel (ThePlayer r) ev rest w).
Qed.

Lemma addPlayer_not_TypeError fuel p w w' :
  is_Some (playerManager w) → addPlayer prog fuel p w ≠ TypeError w'.
Proof.
  intros [m Hm]. unfold addPlayer. rewrite Hm.
  destruct (Map_get _ m); [done|]. destruct (createPlayer prog p w) as [r w1].
  by destruct (notify_others prog fuel _ _ _).
Qed.

(** X9. An entry point of the router throws exactly when the mode has
    no PlayerManager yet and the entry point is one of those that resolve
    a player without testing for it first (the single-player and
    two-player events and [OnPlayerLeaveGame], not [OngoingPlayer]); the
    state is then left as it was.  The global events, [OngoingPlayer]
    and [OnPlayerJoinGame] never throw. *)
Theorem internal_throws_iff fuel c w w' :
  _internal prog fuel c w = TypeError w'
  ↔ playerManager w = None ∧ needs_manager c = true ∧ w' = w.
Proof.
  split.
  - destruct c as [k extra| |p|k p extra|k p q extra|p|n]; simpl.
    + done.
    + by destruct (emit prog fuel TheMode OngoingGlobal [] w).
    + destruct (playerManager w) as [m|] eqn:Hm; [|done].
      unfold lp, get. rewrite Hm. simpl.
      destruct (resolve p m) as [r|] eqn:Hres; [|done].
      unfold tick, get. rewrite Hm, Hres. simpl.
      by destruct (emit prog fuel (ThePlayer r) OngoingPlayer [] w).
    + unfold lp, get. destruct (playerManager w) as [m|] eqn:Hm; simpl.
      * destruct (resolve p m) as [r|]; [|done]. intros Hthrow.
        exfalso. revert Hthrow. apply forward_not_TypeError. by rewrite Hm.
      * by intros [= <-].
    + unfold lp, get. destruct (playerManager w) as [m|] eqn:Hm; simpl.
      * destruct (resolve p m) as [r|]; [|done]. rewrite Hm. simpl. intros Hthrow.
        exfalso. revert Hthrow. apply forward_not_TypeError. by rewrite Hm.
      * by intros [= <-].
    + set (w0 := match playerManager w with Some _ => w | None => _ end).
      assert (Hw0 : is_Some (playerManager w0)).
      { subst w0. destruct (playerManager w) eqn:Hm; [by rewrite Hm|done]. }
      destruct (addPlayer prog fuel p w0) as [r w1|w1|] eqn:Hadd; [done| |done].
      exfalso. revert Hadd. by apply addPlayer_not_TypeError.
    + unfold lpId, getById. destruct (playerManager w) as [m|] eqn:Hm; simpl.
      * set (w0 := match Map_get n m with Some _ => _ | None => w end).
        assert (Hm0 : playerManager w0 = Some m).
        { subst w0. destruct (Map_get n m) as [r|]; [|done].
          by destruct (run_hook_fields prog OnPlayerLeaveGame [ArgLP (Some r)] w)
            as (_ & -> & _). }
        destruct (removePlayer_spec n w0 m Hm0) as (w1 & -> & _). done.
      * by intros [= <-].
  - intros (Hm & Hc & ->).
    destruct c as [k extra| |p|k p extra|k p q extra|p|n]; try done; simpl.
    + unfold lp, get. by rewrite Hm.
    + unfold lp, get. by rewrite Hm.
    + unfold lpId, getById. by rewrite Hm.
Qed.

(** What a call that returns does to the [playerManager] field. *)
Lemma internal_manager fuel c w w' :
  _internal prog fuel c w = Done tt w' →
  match c with
  | CallJoin _ => is_Some (playerManager w')
  | CallLeave n =>
      ∃ m, playerManager w = Some m ∧ playerManager w' = Some (Map_delete n m)
  | _ => playerManager w' = playerManager w
  end.
Proof.
  destruct c as [k extra| |p|k p extra|k p q extra|p|n]; simpl.
  - intros [= <-].
    by destruct (run_hook_fields prog (EvWorld k) (ArgHost <$> extra) w) as (_ & -> & _).
  - destruct (emit prog fuel TheMode OngoingGlobal [] w) as [w1|] eqn:He; [|done].
    simpl. intros [= <-].
    destruct (emit_frame prog _ _ _ _ _ _ He) as (ls & _ & Hpm & _).
    by destruct (run_hook_fields prog OngoingGlobal [] w1) as (_ & -> & _).
  - destruct (playerManager w) as [m|] eqn:Hm; [|intros [= <-]; by rewrite Hm].
    unfold lp, get. rewrite Hm. simpl.
    destruct (resolve p m) as [r|] eqn:Hres; [|intros [= <-]; by rewrite Hm].
    unfold tick, get. rewrite Hm, Hres. simpl. intros Hrun.
    assert (Hfw : forward prog fuel OngoingPlayer r [] w = Done tt w')
      by (unfold forward, PlayerManager_On; by rewrite Hm).
    destruct (forward_spec prog _ _ _ _ _ _ Hfw) as (ls & _ & Hpm & _). congruence.
  - unfold lp, get. destruct (playerManager w) as [m|] eqn:Hm; [|done]. simpl.
    destruct (resolve p m) as [r|]; [|intros [= <-]; by rewrite Hm]. intros Hfw.
    destruct (forward_spec prog _ _ _ _ _ _ Hfw) as (ls & _ & Hpm & _). congruence.
  - unfold lp, get. destruct (playerManager w) as [m|] eqn:Hm; [|done]. simpl.
    destruct (resolve p m) as [r|]; [|intros [= <-]; by rewrite Hm].
    rewrite Hm. simpl. intros Hfw.
    destruct (forward_spec prog _ _ _ _ _ _ Hfw) as (ls & _ & Hpm & _). congruence.
  - destruct (addPlayer prog fuel p _) as [r w1| |] eqn:Hadd; [|done..].
    simpl. intros [= <-].
    destruct (run_hook_fields prog OnPlayerJoinGame [ArgLP (Some r)] w1)
      as (_ & -> & _).
    by eapply addPlayer_keeps_manager.
  - unfold lpId, getById. destruct (playerManager w) as [m|] eqn:Hm; [|done]. simpl.
    set (w0 := match Map_get n m with Some _ => _ | None => w end).
    assert (Hm0 : playerManager w0 = Some m).
    { subst w0. destruct (Map_get n m) as [r|]; [|done].
      by destruct (run_hook_fields prog OnPlayerLeaveGame [ArgLP (Some r)] w)
        as (_ & -> & _). }
    destruct (removePlayer_spec n w0 m Hm0) as (w1 & -> & Hm1 & _).
    intros [= <-]. by exists m.
Qed.

Lemma run_manager fuel cs w w' :
  run prog fuel cs w = Done tt w' →
  (is_Some (playerManager w')
   ↔ is_Some (playerManager w) ∨ ∃ p, CallJoin p ∈ cs).
Proof.
  revert w. induction cs as [|c cs IH]; intros w; simpl.
  - intros [= <-]. split; [by left|]. intros [H|[p Hp]]; [done|].
    by apply elem_of_nil in Hp.
  - destruct (_internal prog fuel c w) as [[] w1| |] eqn:Hc; [|done..]. simpl.
    intros Hrun. rewrite (IH _ Hrun). pose proof (internal_manager _ _ _ _ Hc) as Hstep.
    split.
    + intros [H1|[p Hp]]; [|right; exists p; by apply elem_of_cons; right].
      destruct c; try (left; congruence).
      * right. eexists. apply elem_of_cons. by left.
      * destruct Hstep as (m & -> & _). by left.
    + intros [Hw|[p [Heq|Hp]%elem_of_cons]].
      * left. destruct c; try congruence; try done.
        destruct Hstep as (m & _ & ->). done.
      * left. by subst c.
      * right. by exists p.
Qed.

(** X10. The PlayerManager is made by the first [OnPlayerJoinGame] and
    by nothing else, and once made it stays: after any calls on a new
    mode that all returned, the mode has a PlayerManager exactly when one
    of the calls was a join. *)
Theorem manager_exists_iff_joined fuel cs w' :
  run prog fuel cs new_GameMode = Done tt w' →
  (is_Some (playerManager w') ↔ ∃ p, CallJoin p ∈ cs).
Proof.
  intros Hrun. rewrite (run_manager _ _ _ _ Hrun). simpl. split; [|by right].
  intros [[m Hm]|H]; [discriminate Hm|done].
Qed.

(** X11. The first join needs no fuel and tells nobody: on a mode with
    no PlayerManager, [OnPlayerJoinGame] returns, the registry made holds
    the one new instance, and all that is observed is the insertion and
    the hook. *)
Theorem first_join_creates_manager fuel p w :
  playerManager w = None →
  ∃ w', _internal prog fuel (CallJoin p) w = Done tt w'
        ∧ playerManager w' = Some [(Mod.GetObjId p, length (objects w))]
        ∧ trace w' = trace w ++
            [ObsSet (Mod.GetObjId p) (length (objects w));
             ObsHook OnPlayerJoinGame [ArgLP (Some (length (objects w)))]].
Proof.
  intros Hm.
  assert (Hfirst : ∃ w1,
            addPlayer prog fuel p (createPlayerManager w)
            = Done (length (objects w)) w1
            ∧ playerManager w1 = Some [(Mod.GetObjId p, length (objects w))]
            ∧ trace w1 = trace w ++ [ObsSet (Mod.GetObjId p) (length (objects w))]).
  { unfold addPlayer. cbn [createPlayerManager set_playerManager playerManager Map_get].
    destruct (createPlayer_spec prog p (createPlayerManager w))
      as (Hlp & _ & _ & Htr1).
    destruct (createPlayer prog p (createPlayerManager w)) as [B w1].
    cbn [fst snd] in Hlp, Htr1. cbn [objects createPlayerManager set_playerManager] in Hlp.
    subst B. cbn [Map_set Map_values fmap list_fmap snd notify_others].
    rewrite bool_decide_eq_false_2 by naive_solver.
    eexists. split; [reflexivity|]. split; [done|]. simpl. by rewrite Htr1. }
  destruct Hfirst as (w1 & Hadd & Hm1 & Htr1).
  cbn [_internal]. rewrite Hm, Hadd. cbn [bind].
  eexists. split; [reflexivity|].
  destruct (run_hook_fields prog OnPlayerJoinGame [ArgLP (Some (length (objects w)))] w1)
    as (-> & -> & _).
  split; [done|]. by rewrite Htr1, <- app_assoc.
Qed.

(** X12. A join event for an id that is registered makes no instance
    and tells nobody, yet the hook [OnPlayerJoinGame] is entered again,
    with the instance that is registered. *)
Theorem duplicate_join_event_runs_hook_only fuel p w m r :
  playerManager w = Some m →
  Map_get (Mod.GetObjId p) m = Some r →
  ∃ w', _internal prog fuel (CallJoin p) w = Done tt w'
        ∧ trace w' = trace w ++ [ObsHook OnPlayerJoinGame [ArgLP (Some r)]]
        ∧ playerManager w' = Some m
        ∧ length (objects w') = length (objects w).
Proof.
  intros Hm Hget. simpl. rewrite Hm.
  rewrite (addPlayer_duplicate_lookup fuel p w m r Hm Hget). simpl.
  eexists. split; [reflexivity|].
  by destruct (run_hook_fields prog OnPlayerJoinGame [ArgLP (Some r)] w)
    as (-> & -> & ->).
Qed.

(** X13. After a leave for [n], events that arrive late for a handle of
    that id are dropped: every single-player and two-player entry point,
    and [OngoingPlayer], returns with the state as it is, whether the
    host still holds the handle valid or not. *)
Theorem events_after_leave_are_dropped fuel n w m :
  playerManager w = Some m →
  ∃ w1, _internal prog fuel (CallLeave n) w = Done tt w1
        ∧ ∀ fuel' p, Mod.GetObjId p = n →
            (∀ k extra, _internal prog fuel' (CallPlayer k p extra) w1 = Done tt w1)
            ∧ (∀ k q extra, _internal prog fuel' (CallPair k p q extra) w1 = Done tt w1)
            ∧ _internal prog fuel' (CallOngoingPlayer p) w1 = Done tt w1.
Proof.
  intros Hm. simpl. unfold lpId, getById. rewrite Hm. simpl.
  set (w0 := match Map_get n m with Some _ => _ | None => w end).
  assert (Hm0 : playerManager w0 = Some m).
  { subst w0. destruct (Map_get n m) as [r|]; [|done].
    by destruct (run_hook_fields prog OnPlayerLeaveGame [ArgLP (Some r)] w)
      as (_ & -> & _). }
  destruct (removePlayer_spec n w0 m Hm0) as (w1 & Hrun & Hm1 & _).
  exists w1. split; [done|]. intros fuel' p Hid.
  assert (Hres : resolve p (Map_delete n m) = None).
  { unfold resolve. destruct (Mod.IsPlayerValid p); simpl; [|done].
    rewrite Hid. apply Map_get_delete_eq. }
  unfold lp, get. rewrite Hm1. simpl. rewrite Hres. done.
Qed.

(** X14. An event for a player is delivered through that player alone:
    in a call of a single-player or two-player entry point, or of
    [OngoingPlayer], every [emit] and every callback entered goes through
    the instance the acting handle resolves to; in particular nothing is
    delivered through the other player of a two-player event. *)
Theorem player_event_delivery_is_private fuel c p w m w' :
  acting_player c = Some p →
  playerManager w = Some m →
  _internal prog fuel c w = Done tt w' →
  Forall (λ o, ∀ s, obs_subject o = Some s → Some s = ThePlayer <$> resolve p m)
         (drop (length (trace w)) (trace w')).
Proof.
  intros Hc Hm.
  assert (Hfw : ∀ ev r rest,
            resolve p m = Some r →
            forward prog fuel ev r rest w = Done tt w' →
            Forall (λ o, ∀ s, obs_subject o = Some s → Some s = ThePlayer <$> resolve p m)
                   (drop (length (trace w)) (trace w'))).
  { intros ev r rest Hres Hrun.
    destruct (forward_spec prog _ _ _ _ _ _ Hrun) as (ls & -> & _).
    rewrite drop_app_length, Hres. simpl.
    constructor; [by intros s [= <-]|]. apply Forall_app. split.
    - unfold invocations. apply Forall_fmap, Forall_forall.
      by intros l _ s [= <-].
    - constructor; [done|constructor]. }
  destruct c as [k extra| |p0|k p0 extra|k p0 q extra|p0|n]; try done;
    injection Hc as ->; simpl; unfold lp, get; rewrite Hm; simpl.
  - destruct (resolve p m) as [r|] eqn:Hres.
    + unfold tick, get. rewrite Hm, Hres. simpl. intros Hrun.
      apply (Hfw OngoingPlayer r []); [done|].
      unfold forward, PlayerManager_On. by rewrite Hm.
    + intros [= <-]. rewrite drop_trace_nil. constructor.
  - destruct (resolve p m) as [r|] eqn:Hres.
    + by apply Hfw.
    + intros [= <-]. rewrite drop_trace_nil. constructor.
  - destruct (resolve p m) as [r|] eqn:Hres.
    + rewrite Hm. simpl. by apply Hfw.
    + intros [= <-]. rewrite drop_trace_nil. constructor.
Qed.

End RouterEdges.

Lemma manager_exists_iff_joined_witness :
  is_Some (playerManager lobby)
  ↔ ∃ p, CallJoin p ∈ [CallWorld OnGameModeStarted []; CallJoin alice].
Proof.
  exact (manager_exists_iff_joined Example 0
           [CallWorld OnGameModeStarted []; CallJoin alice] lobby eq_refl).
Defined.

Lemma first_join_creates_manager_witness :
  ∃ w', _internal Example 0 (CallJoin alice) new_GameMode = Done tt w'
        ∧ playerManager w' = Some [(7%Z, 0)]
        ∧ trace w' = [ObsSet 7 0; ObsHook OnPlayerJoinGame [ArgLP (Some 0)]].
Proof.
  exact (first_join_creates_manager Example 0 alice new_GameMode eq_refl).
Defined.

Lemma duplicate_join_event_runs_hook_only_witness :
  ∃ w', _internal Example 0 (CallJoin ghost) lobby = Done tt w'
        ∧ trace w' = trace lobby ++ [ObsHook OnPlayerJoinGame [ArgLP (Some 0)]]
        ∧ playerManager w' = Some [(7%Z, 0)]
        ∧ length (objects w') = 1.
Proof.
  exact (duplicate_join_event_runs_hook_only Example 0 ghost lobby [(7%Z, 0)] 0
           eq_refl eq_refl).
Defined.

Lemma events_after_leave_are_dropped_witness :
  ∃ w1, _internal Example 0 (CallLeave 7) lobby = Done tt w1
        ∧ _internal Example 5 (CallPlayer OnPlayerDeployed alice []) w1 = Done tt w1.
Proof.
  destruct (events_after_leave_are_dropped Example 0 7 lobby [(7%Z, 0)] eq_refl)
    as (w1 & Hleave & Hlate).
  exists w1. split; [exact Hleave|].
  destruct (Hlate 5 alice eq_refl) as (Hsingle & _). apply Hsingle.
Defined.

Lemma player_event_delivery_is_private_witness :
  Forall (λ o, ∀ s, obs_subject o = Some s → Some s = Some (ThePlayer 0))
    [ObsEmit (ThePlayer 0) (EvPair OnPlayerDied) [ArgLP (Some 1)];
     ObsHook (EvPair OnPlayerDied) [ArgLP (Some 0); ArgLP (Some 1)]].
Proof.
  exact (player_event_delivery_is_private Sample 1 (CallPair OnPlayerDied alice bob [])
           alice hall_two [(7%Z, 0); (9%Z, 1)]
           (add_trace [ObsEmit (ThePlayer 0) (EvPair OnPlayerDied) [ArgLP (Some 1)];
                       ObsHook (EvPair OnPlayerDied) [ArgLP (Some 0); ArgLP (Some 1)]]
              hall_two)
           eq_refl eq_refl eq_refl).
Defined.

(** ** Subjects do not share subscribers *)

Lemma listeners_of_index s w :
  listeners_of s w
  = (gm_listeners w :: (listeners <$> objects w))
      !! match s with TheMode => 0 | ThePlayer r => S r end.
Proof. destruct s as [|r]; simpl; [done|]. by rewrite list_lookup_fmap. Qed.

Lemma no_alias_distinct s s' w a a' :
  no_alias w → s ≠ s' →
  listeners_of s w = Some a → listeners_of s' w = Some a' → a ≠ a'.
Proof.
  unfold no_alias. rewrite !listeners_of_index. intros Hnd Hne Ha Ha' ->.
  pose proof (NoDup_lookup _ _ _ _ Hnd Ha Ha') as Hidx.
  destruct s, s'; simpl in Hidx; congruence.
Qed.

(** X15. On a well-formed store, subscribing to or unsubscribing from
    one subject leaves the subscribers of every other subject (the mode,
    every other player) as they were: no two subjects share an array. *)
Theorem bus_operations_are_local s s' l w :
  store_ok w → no_alias w → s ≠ s' →
  current_listeners s' (addListener s l w) = current_listeners s' w
  ∧ current_listeners s' (removeListener s l w) = current_listeners s' w.
Proof.
  intros Hs Hna Hne. split.
  - unfold addListener. destruct (listeners_of s w) as [a|] eqn:Ha; [|done].
    destruct (arrays w !! a) as [ls|] eqn:Hls; [|done].
    unfold current_listeners.
    assert (Hs' : listeners_of s' (set_arrays (λ h, <[a:=ls ++ [l]]> h) w)
                  = listeners_of s' w) by (by destruct s').
    rewrite Hs'. destruct (listeners_of s' w) as [a'|] eqn:Ha'; [|done]. simpl.
    apply list_lookup_insert_ne.
    by apply (no_alias_distinct s s' w).
  - unfold removeListener. destruct (current_listeners s w) as [ls|]; [|done].
    simpl. destruct Hs as [Hgm Hobj]. unfold current_listeners.
    assert (Hlook : ∀ o', o' ∈ objects w →
              (arrays w ++ [filter (λ l', l' ≠ l) ls]) !! listeners o'
              = arrays w !! listeners o').
    { intros o' Ho'. apply lookup_app_l. rewrite Forall_forall in Hobj. by apply Hobj. }
    destruct s as [|r], s' as [|r']; simpl; try done.
    + destruct (objects w !! r') as [o'|] eqn:Ho'; [|done]. simpl.
      apply Hlook. by eapply list_elem_of_lookup_2.
    + destruct (objects w !! r); simpl; by apply lookup_app_l.
    + assert (Hrr : r ≠ r') by congruence.
      destruct (objects w !! r) as [o|]; simpl.
      * rewrite list_lookup_insert_ne by done.
        destruct (objects w !! r') as [o'|] eqn:Ho'; [|done]. simpl.
        apply Hlook. by eapply list_elem_of_lookup_2.
      * destruct (objects w !! r') as [o'|] eqn:Ho'; [|done]. simpl.
        apply Hlook. by eapply list_elem_of_lookup_2.
Qed.

Lemma bus_operations_are_local_witness :
  current_listeners (ThePlayer 1) (addListener (ThePlayer 0) 9 hall_two)
  = current_listeners (ThePlayer 1) hall_two.
Proof.
  refine (proj1 (bus_operations_are_local (ThePlayer 0) (ThePlayer 1) 9 hall_two _ _ _)).
  - by apply (bool_decide_unpack _).
  - by apply (bool_decide_unpack _).
  - discriminate.
Defined.

(** ** The throttled observer *)

Lemma spaced_tail d t ts : spaced d (t :: ts) → spaced d ts.
Proof. intros H i t1 t2 H1 H2. by apply (H (S i)). Qed.

Lemma spaced_span d t ts t' :
  spaced d (t :: ts) → last (t :: ts) = Some t' →
  (Z.of_nat (length ts) * d ≤ t' - t)%Z.
Proof.
  revert t. induction ts as [|x ts IH]; intros t Hsp Hlast.
  - injection Hlast as <-. simpl. lia.
  - pose proof (Hsp 0 t x eq_refl eq_refl) as Hgap.
    specialize (IH x (spaced_tail _ _ _ Hsp) Hlast).
    rewrite length_cons, Nat2Z.inj_succ. lia.
Qed.

Lemma ticks_spec nows foo :
  spaced (Example_FooClass.interval foo)
         (Example_FooClass.lastTime foo :: (Example_FooClass.ticks nows foo).2)
  ∧ Example_FooClass.lastTime (Example_FooClass.ticks nows foo).1
    = default (Example_FooClass.lastTime foo)
        (last (Example_FooClass.ticks nows foo).2)
  ∧ Example_FooClass.interval (Example_FooClass.ticks nows foo).1
    = Example_FooClass.interval foo.
Proof.
  revert foo. induction nows as [|now rest IH]; intros foo.
  - simpl. split; [|done]. intros i t1 t2 H1 H2. by destruct i.
  - cbn [Example_FooClass.ticks]. unfold Example_FooClass.onTick.
    destruct (now - Example_FooClass.lastTime foo <? Example_FooClass.interval foo)%Z
      eqn:Hlt.
    + specialize (IH foo).
      by destruct (Example_FooClass.ticks rest foo) as [foo2 shows].
    + apply Z.ltb_ge in Hlt.
      specialize (IH (Example_FooClass.mk now (Example_FooClass.interval foo))).
      destruct (Example_FooClass.ticks rest _) as [foo2 shows].
      cbn [fst snd Example_FooClass.lastTime Example_FooClass.interval] in *.
      destruct IH as (Hsp & Hlast & Hint). split; [|split; [|done]].
      * intros [|i] t1 t2 H1 H2.
        -- injection H1 as <-. injection H2 as <-. done.
        -- by apply (Hsp i).
      * rewrite Hlast. destruct shows as [|x shows]; [done|].
        change (last (now :: x :: shows)) with (last (x :: shows)).
        destruct (proj2 (last_is_Some (x :: shows))) as [y ->]; done.
Qed.

(** X16. The throttle of [Example_FooClass]: over any clock readings,
    in any order, each showing of the message comes at least [interval]
    after the one before it, and the first at least [interval] after the
    initial [lastTime]; the object remembers the last reading at which it
    showed, and its interval does not change. *)
Theorem throttle_min_gap nows foo :
  spaced (Example_FooClass.interval foo)
         (Example_FooClass.lastTime foo :: (Example_FooClass.ticks nows foo).2)
  ∧ Example_FooClass.lastTime (Example_FooClass.ticks nows foo).1
    = default (Example_FooClass.lastTime foo)
        (last (Example_FooClass.ticks nows foo).2)
  ∧ Example_FooClass.interval (Example_FooClass.ticks nows foo).1
    = Example_FooClass.interval foo.
Proof. apply ticks_spec. Qed.

(** X17. So the rate of the message is bounded: [k + 1] showings take
    at least [k] intervals from the first to the last. *)
Theorem throttle_rate nows foo t1 shows t2 :
  (Example_FooClass.ticks nows foo).2 = t1 :: shows →
  last (t1 :: shows) = Some t2 →
  (Z.of_nat (length shows) * Example_FooClass.interval foo ≤ t2 - t1)%Z.
Proof.
  intros Hshown Hlast. destruct (ticks_spec nows foo) as (Hsp & _).
  rewrite Hshown in Hsp. apply spaced_tail in Hsp. by apply spaced_span.
Qed.

Lemma throttle_rate_witness : (2 * 4000 ≤ 13000 - 5000)%Z.
Proof.
  exact (throttle_rate [5000; 6000; 9000; 9500; 13000]%Z Example_FooClass.new
           5000%Z [9000; 13000]%Z 13000%Z eq_refl eq_refl).
Defined.

(** ** Player events: dispatch, drop, return *)

Section Dispatch.

Variable prog : Program.

Lemma internal_dispatched fuel c w m ev r rest :
  playerManager w = Some m →
  dispatched c m = Some (ev, r, rest) →
  _internal prog fuel c w = forward prog fuel ev r rest w.
Proof.
  intros Hm. destruct c as [k extra| |p|k p extra|k p q extra|p|n]; try done; simpl;
    destruct (resolve p m) as [r0|] eqn:Hres; try done; intros [= <- <- <-].
  - rewrite Hm. unfold lp, get. rewrite Hm. simpl. rewrite Hres.
    unfold tick, get. rewrite Hm, Hres. simpl.
    unfold forward, PlayerManager_On. by rewrite Hm.
  - unfold lp, get. rewrite Hm. simpl. by rewrite Hres.
  - unfold lp, get. rewrite Hm. simpl. rewrite Hres. by rewrite Hm.
Qed.

(** X18. A player event whose acting handle resolves to [r]
    ([OngoingPlayer], the 24 single-player events, the 6 two-player
    events): if the call returns, what is observed is the [emit] of the
    event through [r] with the forwarded arguments (for a two-player
    event the instance of the other player, or [undefined], comes first),
    then the callbacks of the subscribers of [r] in order and of those
    subscribed meanwhile, then the hook with [r] and the same arguments;
    the registry is as it was.  The call returns when no callback for the
    event subscribes anything. *)
Theorem player_event_dispatch fuel c w m ev r rest :
  playerManager w = Some m →
  dispatched c m = Some (ev, r, rest) →
  (∀ w' ls0, _internal prog fuel c w = Done tt w' →
     current_listeners (ThePlayer r) w = Some ls0 →
     ∃ ext, trace w' = trace w ++
              ObsEmit (ThePlayer r) ev rest
              :: invocations prog (ThePlayer r) ev rest (ls0 ++ ext)
              ++ [ObsHook ev (ArgLP (Some r) :: rest)]
            ∧ playerManager w' = Some m)
  ∧ (quiet prog ev → ∃ fuel' w', _internal prog fuel' c w = Done tt w').
Proof.
  intros Hm Hd. split.
  - intros w' ls0 Hrun Hcur. rewrite (internal_dispatched _ _ _ _ _ _ _ Hm Hd) in Hrun.
    destruct (forward_spec prog _ _ _ _ _ _ Hrun) as (ls & Htr & Hpm & _ & Hext).
    destruct (Hext ls0 Hcur) as [ext ->]. exists ext. split; [done|]. congruence.
  - intros Hq.
    destruct (forward_returns prog ev r rest w Hq) as (fuel' & w' & Hrun);
      [by rewrite Hm|].
    exists fuel', w'. by rewrite (internal_dispatched _ _ _ _ _ _ _ Hm Hd).
Qed.

(** X19. Once the mode has a PlayerManager, a player event whose acting
    handle does not resolve (the host does not hold it valid, or its id
    has no entry) is dropped: the call returns, and the state, trace
    included, is the one before the call. *)
Theorem unresolved_player_event_is_dropped fuel c p w m :
  acting_player c = Some p →
  playerManager w = Some m →
  resolve p m = None →
  _internal prog fuel c w = Done tt w.
Proof.
  intros Hc Hm Hres.
  destruct c as [k extra| |p0|k p0 extra|k p0 q extra|p0|n]; try done;
    injection Hc as ->; simpl; unfold lp, get; rewrite Hm; simpl; by rewrite Hres.
Qed.

(** X20. On a mode with a PlayerManager, and for a program whose
    callbacks never subscribe, every entry point of the router returns
    normally: it neither throws nor loops. *)
Theorem router_returns_when_quiet c w :
  (∀ ev, quiet prog ev) → is_Some (playerManager w) →
  ∃ fuel w', _internal prog fuel c w = Done tt w'.
Proof. apply internal_returns. Qed.

(** X21. After joins for handles with pairwise distinct ids, from an
    empty registry, [allPlayers()] returns the instances the joins
    returned, in the order of joining. *)
Theorem allPlayers_in_join_order fuel ps w rs w' :
  playerManager w = Some [] →
  NoDup (Mod.GetObjId <$> ps) →
  joins prog fuel ps w = Done rs w' →
  allPlayers w' = Done rs w'.
Proof.
  intros Hm Hnd Hj.
  destruct (joins_spec prog fuel ps w [] rs w' Hm) as (Hrs & Hm'); [|done..|].
  { apply Forall_forall. by intros p _. }
  unfold allPlayers, Map_values. rewrite Hm'. simpl. f_equal.
  apply snd_zip. rewrite Hrs, length_seq, length_fmap. done.
Qed.

End Dispatch.

Lemma player_event_dispatch_witness :
  ∃ fuel' w',
    _internal Sample fuel' (CallPair OnPlayerDamaged alice bob [3; 4]%Z) hall_two
    = Done tt w'.
Proof.
  destruct (player_event_dispatch Sample 0
              (CallPair OnPlayerDamaged alice bob [3; 4]%Z) hall_two
              [(7%Z, 0); (9%Z, 1)] (EvPair OnPlayerDamaged) 0
              [ArgLP (Some 1); ArgHost 3; ArgHost 4] eq_refl eq_refl) as [_ Hret].
  apply Hret, Sample_quiet.
Defined.

Lemma unresolved_player_event_is_dropped_witness :
  _internal Example 0 (CallPlayer OnPlayerDeployed ghost []) lobby = Done tt lobby.
Proof.
  exact (unresolved_player_event_is_dropped Example 0
           (CallPlayer OnPlayerDeployed ghost []) ghost lobby [(7%Z, 0)]
           eq_refl eq_refl eq_refl).
Defined.

Lemma router_returns_when_quiet_witness :
  ∃ fuel w', _internal Sample fuel (CallJoin carol) hall_two = Done tt w'.
Proof.
  apply (router_returns_when_quiet Sample (CallJoin carol) hall_two).
  - apply Sample_quiet.
  - by eexists.
Defined.

Lemma allPlayers_in_join_order_witness :
  allPlayers (mkState [[]; [4]; [5]] [mkAPlayer alice 1; mkAPlayer bob 2]
                (Some [(7%Z, 0); (9%Z, 1)]) 0
                [ObsSet 7 0; ObsSet 9 1;
                 ObsEmit (ThePlayer 0) OnPlayerJoinGame [ArgLP (Some 1)];
                 ObsInvoke (ThePlayer 0) 4 OnPlayerJoinGame [ArgLP (Some 1)]])
  = Done [0; 1]
      (mkState [[]; [4]; [5]] [mkAPlayer alice 1; mkAPlayer bob 2]
         (Some [(7%Z, 0); (9%Z, 1)]) 0
         [ObsSet 7 0; ObsSet 9 1;
          ObsEmit (ThePlayer 0) OnPlayerJoinGame [ArgLP (Some 1)];
          ObsInvoke (ThePlayer 0) 4 OnPlayerJoinGame [ArgLP (Some 1)]]).
Proof.
  refine (allPlayers_in_join_order Sample 1 [alice; bob]
            (createPlayerManager new_GameMode) [0; 1] _ eq_refl _ eq_refl).
  by apply (bool_decide_unpack _).
Defined.
